(** * netplan [generate]: source resolution and backend dispatch

    A shallow embedding of [src/generate.c] (the [netplan generate]
    entry point) and the properties of its orchestration logic:
    discovery and precedence of the YAML sources, ingestion order, dispatch
    to the networkd and NetworkManager writers, and the systemd-generator
    stamp protocol.

    The YAML parser, the backend writers, glib and libc are not part of
    [generate.c]; they are taken as an interface ([Env]) over an abstract
    process environment [W].  Every call that crosses this interface and
    can change the environment is recorded, together with what it returned,
    in the list of events the run emits, so that statements such as "the
    writer is invoked once per entry" or "cleanup precedes every write" are
    statements about that list.  The [g_debug] log lines and the set-up of
    the option context have no effect on what is stated and are left out. *)

From stdpp Require Import base option list strings gmap fin_maps sorting.
From Stdlib Require Import ZArith.

Local Open Scope Z_scope.

(** ** libc and glib string helpers used by [main] *)

Definition byte_of (c : Ascii.ascii) : Z := Z.of_N (Ascii.N_of_ascii c).

(** [strcmp]: byte-wise comparison, the bytes read as [unsigned char].  A C
    string holds no NUL byte, so a proper prefix compares smaller: only the
    sign of the result is used by the caller ([g_list_sort]). *)
Fixpoint strcmp (s1 s2 : string) : Z :=
  match s1, s2 with
  | EmptyString, EmptyString => 0
  | EmptyString, String _ _ => -1
  | String _ _, EmptyString => 1
  | String c1 s1', String c2 s2' =>
      if decide (c1 = c2) then strcmp s1' s2' else byte_of c1 - byte_of c2
  end.

(** The order [g_list_sort (..., strcmp)] sorts by: [a] may stay before [b]
    when [strcmp a b <= 0]. *)
Definition strcmp_le (a b : string) : Prop := strcmp a b ≤ 0.
Definition strcmp_lt (a b : string) : Prop := strcmp a b < 0.

Global Instance strcmp_le_dec : RelDecision strcmp_le.
Proof. intros a b. unfold strcmp_le. apply _. Defined.

(** The newline character of the C string literals. *)
Definition nl : string := String (Ascii.ascii_of_nat 10) EmptyString.

(** [strstr haystack needle]: the suffix of [haystack] that starts at the
    first occurrence of [needle], [None] for the NULL pointer. *)
Fixpoint strstr (haystack needle : string) : option string :=
  if String.prefix needle haystack then Some haystack
  else match haystack with
       | EmptyString => None
       | String _ rest => strstr rest needle
       end.

(** [g_strjoin (NULL, ...)]: concatenation without separator. *)
Definition g_strjoin (parts : list string) : string :=
  foldr String.append EmptyString parts.

(** [g_strv_length]: number of entries of a NULL-terminated string array. *)
Definition g_strv_length (strv : list string) : Z := Z.of_nat (length strv).

(** A [GHashTable*] handed to [g_hash_table_foreach]: the NULL pointer, or
    the key/value pairs in the order the traversal visits them (each pair
    once). *)
Definition GHashTable (V : Type) : Type := option (list (string * V)).

(** The [configs] table of [main]: basename to full path. *)
Definition g_hash_table_insert (key value : string)
    (configs : gmap string string) : gmap string string :=
  <[key := value]> configs.

Definition g_hash_table_get_keys (configs : gmap string string) : list string :=
  (map_to_list configs).*1.

(** [g_list_sort (keys, strcmp)].  The keys of a hash table are pairwise
    distinct, so the sorted list is unique and any sorting algorithm
    yields it. *)
Definition g_list_sort (keys : list string) : list string :=
  merge_sort strcmp_le keys.

(** [GLOB_NOMATCH] of <glob.h>. *)
Definition GLOB_NOMATCH : Z := 3.

(** Modelled from the spec: the backend enumeration of parse.h, which is not
    among the sources.  The spec names the service-managed backend
    (networkd) and the integration backend (NetworkManager); [main] only
    tests for [BACKEND_NM]. *)
Inductive netdef_backend := BACKEND_NONE | BACKEND_NETWORKD | BACKEND_NM.

Global Instance netdef_backend_eq_dec : EqDecision netdef_backend.
Proof. solve_decision. Defined.

(** ** The process: state, events, outcome *)

Section Generate.

(** [W]: everything outside [generate.c] that a call can read or change (the
    file system and the parser's tables).  [ND], [RT], [RL]: the parser's
    [net_definition], [ip_route] and [ip_rule] records. *)
Context {W ND RT RL : Type}.

(** The functions [generate.c] calls but does not define.  Each is taken to
    return to its caller, with one exception: [enable_networkd], whose
    success the source is said to require by an assertion of its own, either
    returns or fails that assertion. *)
Record Env := {
  (* parse.h *)
  parse_yaml : string → W → option string * W;
    (* [Some message]: returned FALSE with [error->message] set *)
  finish_parse : W → bool * W;
  netdefs : W → GHashTable ND;
  ip_routing : W → GHashTable RT;
  ip_rules : W → GHashTable RL;
  get_global_backend : W → netdef_backend;
  (* networkd.h *)
  write_networkd_conf : ND → option string → W → bool * W;
  write_networkd_global_ip_route : RT → option string → W → bool * W;
  write_networkd_global_ip_rule : RL → option string → W → bool * W;
  cleanup_networkd_conf : option string → W → W;
  enable_networkd : string → W → option W;
    (* [None]: the assertion inside [enable_networkd] fails *)
  (* nm.h *)
  write_nm_conf : ND → option string → W → W;
  write_nm_conf_finish : option string → W → W;
  cleanup_nm_conf : option string → W → W;
  (* util.h *)
  g_string_free_to_file : string → option string → string → option string → W → W;
  (* glib *)
  g_build_path : string → list string → string;
  g_path_get_basename : string → string;
  g_spawn_sync : list string → W → W;
  (* libc *)
  glob : string → W → Z * list string;      (* return code, gl_pathv added *)
  strerror_errno : W → string;               (* what "%m" prints *)
  g_access : string → W → Z;                 (* mode F_OK *)
  fopen_w : string → W → option W;           (* [None]: fopen returned NULL *)
}.

Inductive event :=
  | Stderr (text : string)
  | ParseYaml (f : string) (error : option string)
  | FinishParse (ok : bool)
  | CleanupNetworkdConf (rootdir : option string)
  | CleanupNmConf (rootdir : option string)
  | WriteNetworkdConf (def : ND) (rootdir : option string) (produced : bool)
  | WriteNmConf (def : ND) (rootdir : option string)
  | WriteNmConfFinish (rootdir : option string)
  | WriteNetworkdGlobalIpRoute (r : RT) (rootdir : option string) (produced : bool)
  | WriteNetworkdGlobalIpRule (r : RL) (rootdir : option string) (produced : bool)
  | SpawnSync (argv : list string)
  | StringFreeToFile (rootdir : option string) (path : string)
  | EnableNetworkd (generator_dir : string) (ok : bool)
  | Fopen (path : string) (ok : bool).

(** The mutable state of the process: its environment and the file-level
    static [any_networkd]. *)
Record proc := Proc { world : W; any_networkd : bool }.

(** How a computation ends: it yields a value, the process exits with a
    status ([exit (n)], or [return n] from [main]), or a [g_assert] fails
    and the process aborts. *)
Inductive res (A : Type) :=
  | Ret (a : A)
  | Exit (status : Z)
  | Abort.
Global Arguments Ret {A} a.
Global Arguments Exit {A} status.
Global Arguments Abort {A}.

Record out (A : Type) := Out { result : res A; final : proc; emitted : list event }.
Global Arguments Out {A} result final emitted.
Global Arguments result {A} o.
Global Arguments final {A} o.
Global Arguments emitted {A} o.

Definition M (A : Type) : Type := proc → out A.

Global Instance M_ret : MRet M := λ A a s, Out (Ret a) s [].

Global Instance M_bind : MBind M := λ A B k m s,
  let o := m s in
  match result o with
  | Ret a => let o' := k a (final o) in
             Out (result o') (final o') (emitted o ++ emitted o')
  | Exit n => Out (Exit n) (final o) (emitted o)
  | Abort => Out Abort (final o) (emitted o)
  end.

Definition exit {A} (status : Z) : M A := λ s, Out (Exit status) s [].
Definition abort {A} : M A := λ s, Out Abort s [].

(** [g_assert (b)] with assertions compiled in (the default). *)
Definition g_assert (b : bool) : M unit := if b then mret () else abort.

(** A call that changes the environment and returns a value. *)
Definition call {A} (f : W → A * W) (ev : A → event) : M A := λ s,
  let r := f (world s) in
  Out (Ret r.1) (Proc r.2 (any_networkd s)) [ev r.1].

(** A call that only changes the environment. *)
Definition call_ (f : W → W) (ev : event) : M unit :=
  call (λ w, ((), f w)) (λ _, ev).

(** A call that only reads the environment. *)
Definition query {A} (f : W → A) : M A := λ s, Out (Ret (f (world s))) s [].

Definition set_any_networkd : M unit := λ s, Out (Ret ()) (Proc (world s) true) [].
Definition get_any_networkd : M bool := λ s, Out (Ret (any_networkd s)) s [].

Definition g_fprintf_stderr (text : string) : M unit := λ s, Out (Ret ()) s [Stderr text].

(** [for (...) body]: the loop stops when the body ends the process. *)
Fixpoint for_each {A} (l : list A) (body : A → M unit) : M unit :=
  match l with
  | [] => mret ()
  | x :: l' => body x;; for_each l' body
  end.

Definition g_hash_table_foreach {V} (table : GHashTable V)
    (func : string → V → option string → M unit) (user_data : option string) : M unit :=
  match table with
  | None => mret ()            (* g_return_if_fail (hash_table != NULL) *)
  | Some entries => for_each entries (λ kv, func kv.1 kv.2 user_data)
  end.

(** ** [generate.c] *)

Variable E : Env.

Definition reload_udevd : M unit :=
  let argv := ["/sbin/udevadm"; "control"; "--reload"] in
  call_ (g_spawn_sync E argv) (SpawnSync argv).

Definition routing_iterator (key : string) (value : RT) (user_data : option string) : M unit :=
  produced ← call (write_networkd_global_ip_route E value user_data)
                  (WriteNetworkdGlobalIpRoute value user_data);
  if produced : bool then set_any_networkd else mret ().

Definition rule_iterator (key : string) (value : RL) (user_data : option string) : M unit :=
  produced ← call (write_networkd_global_ip_rule E value user_data)
                  (WriteNetworkdGlobalIpRule value user_data);
  if produced : bool then set_any_networkd else mret ().

Definition write_global_routing (rootdir : option string)
    (ip_routing : GHashTable RT) (ip_rules : GHashTable RL) : M unit :=
  g_hash_table_foreach ip_routing routing_iterator rootdir;;
  g_hash_table_foreach ip_rules rule_iterator rootdir.

Definition nd_iterator (key : string) (value : ND) (user_data : option string) : M unit :=
  produced ← call (write_networkd_conf E value user_data)
                  (WriteNetworkdConf value user_data);
  (if produced : bool then set_any_networkd else mret ());;
  call_ (write_nm_conf E value user_data) (WriteNmConf value user_data).

Definition process_input_file (f : string) : M unit :=
  error ← call (parse_yaml E f) (ParseYaml f);
  match error with
  | Some message => g_fprintf_stderr (message +:+ nl);; exit 1
  | None => mret ()
  end.

(** The command line after [g_option_context_parse]: [--root-dir] and the
    remaining arguments, each NULL when not given. *)
Record options := Options { rootdir : option string; files : option (list string) }.

(** [files == NULL || g_strv_length (files) != 3 || files[0] == NULL] *)
Definition bad_generator_args (files : option (list string)) : bool :=
  match files with
  | None => true
  | Some strv => bool_decide (g_strv_length strv ≠ 3) || bool_decide (head strv = None)
  end.

(** [files[0]], read only after the test above has passed. *)
Definition files_0 (files : option (list string)) : string :=
  default EmptyString (files ≫= head).

Definition glob_pattern (rootdir : option string) (tail : string) : string :=
  g_strjoin [default EmptyString rootdir; "/"; tail].

(** [rc = glob (pattern, flags, NULL, &gl)] followed by the test of [rc]:
    yields the new [gl.gl_pathv]. *)
Definition glob_checked (pattern : string) (gl : list string) : M (list string) :=
  r ← query (glob E pattern);
  if bool_decide (r.1 ≠ 0 ∧ r.1 ≠ GLOB_NOMATCH) then
    msg ← query (strerror_errno E);
    g_fprintf_stderr ("failed to glob for " +:+ pattern +:+ ": " +:+ msg +:+ nl);;
    exit 1
  else mret (gl ++ r.2).

(** The loop over [gl.gl_pathv] that fills [configs]. *)
Definition insert_configs (gl : list string) : gmap string string :=
  foldl (λ configs path, g_hash_table_insert (g_path_get_basename E path) path configs) ∅ gl.

(** [strstr (argv[0], "systemd/system-generators/") != NULL] *)
Definition called_as_generator (argv0 : string) : bool :=
  bool_decide (strstr argv0 "systemd/system-generators/" ≠ None).

(** [g_build_path (G_DIR_SEPARATOR_S, files[0], "netplan.stamp", NULL)] *)
Definition stamp_path (files : option (list string)) : string :=
  g_build_path E "/" [files_0 files; "netplan.stamp"].

(** Lines 115-125 of [main]: the systemd-generator calling convention.
    Yields [generator_run_stamp] (NULL when not called as generator). *)
Definition generator_guard (argv0 : string) (called_as_generator : bool)
    (files : option (list string)) : M (option string) :=
  if called_as_generator then
    if bad_generator_args files then
      g_fprintf_stderr (argv0 +:+ " can not be called directly, use 'netplan generate'.");;
      exit 1
    else
      let generator_run_stamp := stamp_path files in
      rc ← query (g_access E generator_run_stamp);
      if bool_decide (rc = 0) then
        g_fprintf_stderr ("netplan generate already ran, remove " +:+ generator_run_stamp
                          +:+ " to force re-run" +:+ nl);;
        exit 0
      else mret (Some generator_run_stamp)
  else mret None.

(** Lines 127-172 of [main]: read all input files. *)
Definition read_input_files (called_as_generator : bool) (rootdir : option string)
    (files : option (list string)) : M unit :=
  match files, called_as_generator with
  | Some strv, false => for_each strv process_input_file
  | _, _ =>
      let glob_etc := glob_pattern rootdir "/etc/netplan/*.yaml" in
      let glob_run := glob_pattern rootdir "/run/netplan/*.yaml" in
      let glob_lib := glob_pattern rootdir "/lib/netplan/*.yaml" in
      gl ← glob_checked glob_lib [];
      gl ← glob_checked glob_etc gl;
      gl ← glob_checked glob_run gl;
      let configs := insert_configs gl in
      let config_keys := g_list_sort (g_hash_table_get_keys configs) in
      for_each config_keys (λ key,
        match configs !! key with
        | Some path => process_input_file path
        | None => mret ()      (* not reached: [key] is a key of [configs] *)
        end)
  end.

(** Lines 180-193 of [main]: generate backend specific configuration files
    from merged data.  The three tables are the parser's globals, read when
    the C code reads them. *)
Definition generate_backend_files (rootdir : option string) : M unit :=
  table ← query (netdefs E);
  if bool_decide (table ≠ None) then
    g_hash_table_foreach table nd_iterator rootdir;;
    call_ (write_nm_conf_finish E rootdir) (WriteNmConfFinish rootdir);;
    routing ← query (ip_routing E);
    rules ← query (ip_rules E);
    write_global_routing rootdir routing rules;;
    reload_udevd
  else mret ().

(** Lines 195-198 of [main]: disable 10-globally-managed-devices.conf if the
    global renderer is NM. *)
Definition disable_nm_device_policy (rootdir : option string) : M unit :=
  backend ← query (get_global_backend E);
  if bool_decide (backend = BACKEND_NM) then
    let path := "/run/NetworkManager/conf.d/10-globally-managed-devices.conf" in
    call_ (g_string_free_to_file E "" rootdir path None) (StringFreeToFile rootdir path)
  else mret ().

Definition fopen (path : string) : M bool :=
  call (λ w, match fopen_w E path w with
             | Some w' => (true, w')
             | None => (false, w)
             end) (Fopen path).

(** Modelled from the spec: [enable_networkd] is defined in networkd.c, and
    [generate.c] only calls it.  Of that call the spec says "source treats
    success as required via an internal assertion": the call returns, or the
    assertion fails and the process aborts where it stands. *)
Definition call_enable_networkd (generator_dir : string) : M unit :=
  ok ← call (λ w, match enable_networkd E generator_dir w with
                  | Some w' => (true, w')
                  | None => (false, w)
                  end) (EnableNetworkd generator_dir);
  g_assert ok.

(** Lines 200-210 of [main]. *)
Definition generator_finish (called_as_generator : bool) (files : option (list string))
    (generator_run_stamp : option string) : M unit :=
  if called_as_generator then
    (* Ensure networkd starts if we have any configuration for it *)
    any ← get_any_networkd;
    (if any : bool then call_enable_networkd (files_0 files) else mret ());;
    (* Leave a stamp file; [fclose (f)] follows at once, nothing is written *)
    f ← fopen (default EmptyString generator_run_stamp);
    g_assert f
  else mret ().

(** [main], from the point where [g_option_context_parse] has returned:
    [parsed] is its error message or the options it stored.  (A run that
    glib ends inside that call, printing the help when help is enabled, does
    not get to this point and is not a run of this function.)  [return n]
    from [main] ends the process with status [n], as [exit (n)] does. *)
Definition main (argv0 : string) (parsed : string + options) : M unit :=
  (* are we being called as systemd generator? *)
  let called_as_generator := called_as_generator argv0 in
  match parsed with
  | inl message =>
      g_fprintf_stderr ("failed to parse options: " +:+ message +:+ nl);; exit 1
  | inr (Options rootdir files) =>
      generator_run_stamp ← generator_guard argv0 called_as_generator files;
      read_input_files called_as_generator rootdir files;;
      ok ← call (finish_parse E) FinishParse;
      g_assert ok;;
      (* Clean up generated config from previous runs *)
      call_ (cleanup_networkd_conf E rootdir) (CleanupNetworkdConf rootdir);;
      call_ (cleanup_nm_conf E rootdir) (CleanupNmConf rootdir);;
      generate_backend_files rootdir;;
      disable_nm_device_policy rootdir;;
      generator_finish called_as_generator files generator_run_stamp;;
      exit 0
  end.

(** A fresh process: [any_networkd] is a zero-initialised static. *)
Definition run_main (argv0 : string) (parsed : string + options) (w : W) : out unit :=
  main argv0 parsed (Proc w false).

(** *** Vocabulary of the statements *)

(** The three glob results of the discovery branch, lowest tier first. *)
Definition tier_lib (rootdir : option string) (w : W) : list string :=
  (glob E (glob_pattern rootdir "/lib/netplan/*.yaml") w).2.
Definition tier_etc (rootdir : option string) (w : W) : list string :=
  (glob E (glob_pattern rootdir "/etc/netplan/*.yaml") w).2.
Definition tier_run (rootdir : option string) (w : W) : list string :=
  (glob E (glob_pattern rootdir "/run/netplan/*.yaml") w).2.

(** The paths the discovery loop hands to [process_input_file], in order,
    when [gl.gl_pathv] is [gl]. *)
Definition config_sources (gl : list string) : list string :=
  let configs := insert_configs gl in
  omap (λ key, configs !! key) (g_list_sort (g_hash_table_get_keys configs)).

(** Among the paths of [gl] with basename [b], the one inserted last. *)
Definition winner (gl : list string) (b : string) : option string :=
  last (filter (λ p, g_path_get_basename E p = b) gl).

(** The ordered source list of the discovery branch in environment [w]. *)
Definition discovered (rootdir : option string) (w : W) : list string :=
  config_sources (tier_lib rootdir w ++ tier_etc rootdir w ++ tier_run rootdir w).

(** The sources [main] sets out to read. *)
Definition sources_of (called_as_generator : bool) (rootdir : option string)
    (files : option (list string)) (w : W) : list string :=
  match files, called_as_generator with
  | Some strv, false => strv
  | _, _ => discovered rootdir w
  end.

(** [main] globs instead of reading the positional arguments. *)
Definition discovery_mode (called_as_generator : bool) (files : option (list string)) : Prop :=
  files = None ∨ called_as_generator = true.

Definition parse_ok (f : string) : event := ParseYaml f None.

(** The source paths handed to [parse_yaml], in call order. *)
Definition ingested (tr : list event) : list string :=
  omap (λ e, match e with ParseYaml f _ => Some f | _ => None end) tr.

(** Calls that write backend output below the root directory. *)
Definition backend_write (e : event) : bool :=
  match e with
  | WriteNetworkdConf _ _ _ | WriteNmConf _ _ | WriteNmConfFinish _
  | WriteNetworkdGlobalIpRoute _ _ _ | WriteNetworkdGlobalIpRule _ _ _
  | StringFreeToFile _ _ => true
  | _ => false
  end.

(** A networkd writer call that reported output. *)
Definition managed_output (e : event) : bool :=
  match e with
  | WriteNetworkdConf _ _ produced
  | WriteNetworkdGlobalIpRoute _ _ produced
  | WriteNetworkdGlobalIpRule _ _ produced => produced
  | _ => false
  end.


(** The values of a table in traversal order; none for the NULL table. *)
Definition table_values {V} (table : GHashTable V) : list V := (default [] table).*2.

Definition reload_event : event := SpawnSync ["/sbin/udevadm"; "control"; "--reload"].

(** *** Relations between the state before, the events, and the state after *)

Definition transition : Type := proc → list event → proc → Prop.

(** Every execution of [m] is a [T]-transition, however it ends. *)
Definition sound (T : transition) {A} (m : M A) : Prop :=
  ∀ s, T s (emitted (m s)) (final (m s)).

(** [m] never ends the process. *)
Definition total {A} (m : M A) : Prop := ∀ s, ∃ a, result (m s) = Ret a.

Class Composable (T : transition) : Prop := {
  compose_nil s : T s [] s;
  compose_app s1 t1 s2 t2 s3 : T s1 t1 s2 → T s2 t2 s3 → T s1 (t1 ++ t2) s3;
}.

(** [any_networkd] is the disjunction of its old value and the results the
    networkd writers reported. *)
Definition accumulates : transition :=
  λ s tr s', any_networkd s' = any_networkd s || existsb managed_output tr.

(** Only events of kind [K] are emitted. *)
Definition emits (K : event → Prop) : transition := λ _ tr _, Forall K tr.

(** The calls [main] makes after the cleanups keep [P], each with the
    arguments [main] gives it: the writers are called with the root
    directory of the run, and only on a definition, route or rule of the
    parser's tables, read in an environment where [P] held ([w0] below). *)
Definition writers_keep (P : W → Prop) (rootdir : option string) : Prop :=
  (∀ w0 d w, P w0 → d ∈ table_values (netdefs E w0) → P w →
             P (write_networkd_conf E d rootdir w).2)
  ∧ (∀ w0 d w, P w0 → d ∈ table_values (netdefs E w0) → P w →
               P (write_nm_conf E d rootdir w))
  ∧ (∀ w, P w → P (write_nm_conf_finish E rootdir w))
  ∧ (∀ w0 r w, P w0 → r ∈ table_values (ip_routing E w0) → P w →
               P (write_networkd_global_ip_route E r rootdir w).2)
  ∧ (∀ w0 r w, P w0 → r ∈ table_values (ip_rules E w0) → P w →
               P (write_networkd_global_ip_rule E r rootdir w).2)
  ∧ (∀ w, P w → P (g_spawn_sync E ["/sbin/udevadm"; "control"; "--reload"] w))
  ∧ (∀ w, P w → P (g_string_free_to_file E "" rootdir
                     "/run/NetworkManager/conf.d/10-globally-managed-devices.conf" None w))
  ∧ (∀ d w w', P w → enable_networkd E d w = Some w' → P w')
  ∧ (∀ p w w', P w → fopen_w E p w = Some w' → P w').

(** The kinds of events backend generation emits. *)
Definition generation_event (e : event) : Prop := backend_write e = true ∨ e = reload_event.

(** The kinds of events emitted once backend generation has started. *)
Definition late_event (e : event) : Prop :=
  match e with
  | Stderr _ | ParseYaml _ _ | FinishParse _ | CleanupNetworkdConf _ | CleanupNmConf _ => False
  | _ => True
  end.

(** The kinds of events reading the sources emits. *)
Definition ingestion_event (e : event) : Prop :=
  match e with
  | Stderr _ | ParseYaml _ _ => True
  | _ => False
  end.

(** *** The shapes a run can take *)

(** How the loop over a list [l] of sources can end. *)
Inductive ingestion (l : list string) (o : out unit) : Prop :=
  | ingestion_done :
      result o = Ret () →
      emitted o = parse_ok <$> l →
      ingestion l o
  | ingestion_failed (n : nat) (f message : string) (w0 : W) :
      l !! n = Some f →
      result o = Exit 1 →
      emitted o = (parse_ok <$> take n l) ++ [ParseYaml f (Some message); Stderr (message +:+ nl)] →
      parse_yaml E f w0 = (Some message, world (final o)) →
      ingestion l o.

(** The generator guard lets the run proceed. *)
Definition guard_passed (argv0 : string) (files : option (list string)) (w : W) : Prop :=
  called_as_generator argv0 = true →
  bad_generator_args files = false ∧ g_access E (stamp_path files) w ≠ 0.

Definition stamp_of (called_as_generator : bool) (files : option (list string)) : option string :=
  if called_as_generator then Some (stamp_path files) else None.

(** The state in which backend generation starts, when [finish_parse]
    left the environment [w2]. *)
Definition cleaned (rootdir : option string) (w2 : W) : proc :=
  Proc (cleanup_nm_conf E rootdir (cleanup_networkd_conf E rootdir w2)) false.

(** [return 0] at the end of [main], unless the process has ended before. *)
Definition then_exit_0 (r : res ()) : res () :=
  match r with
  | Ret _ => Exit 0
  | Exit n => Exit n
  | Abort => Abort
  end.

(** The runs of [main] past the generator guard (lines 127-212), started in
    environment [w]. *)
Inductive generation (gen : bool) (rootdir : option string) (files : option (list string))
    (w : W) (o : out unit) : Prop :=
  | generation_glob_failed (text : string) :
      discovery_mode gen files →
      o = Out (Exit 1) (Proc w false) [Stderr text] →
      generation gen rootdir files w o
  | generation_parse_failed :
      result (for_each (sources_of gen rootdir files w) process_input_file (Proc w false)) ≠ Ret () →
      o = for_each (sources_of gen rootdir files w) process_input_file (Proc w false) →
      generation gen rootdir files w o
  | generation_finish_failed (oi : out unit) (w2 : W) :
      oi = for_each (sources_of gen rootdir files w) process_input_file (Proc w false) →
      result oi = Ret () →
      finish_parse E (world (final oi)) = (false, w2) →
      o = Out Abort (Proc w2 false) (emitted oi ++ [FinishParse false]) →
      generation gen rootdir files w o
  | generation_dispatched (oi : out unit) (w2 : W) (og op og' : out unit) :
      oi = for_each (sources_of gen rootdir files w) process_input_file (Proc w false) →
      result oi = Ret () →
      finish_parse E (world (final oi)) = (true, w2) →
      og = generate_backend_files rootdir (cleaned rootdir w2) →
      op = disable_nm_device_policy rootdir (final og) →
      og' = generator_finish gen files (stamp_of gen files) (final op) →
      result o = then_exit_0 (result og') →
      final o = final og' →
      emitted o = emitted oi
                  ++ [FinishParse true; CleanupNetworkdConf rootdir; CleanupNmConf rootdir]
                  ++ emitted og ++ emitted op ++ emitted og' →
      generation gen rootdir files w o.

(** The run that finds the stamp: status 0, one line on stderr, nothing
    else. *)
Definition skipped (files : option (list string)) (w : W) : out () :=
  Out (Exit 0) (Proc w false)
      [Stderr ("netplan generate already ran, remove " +:+ stamp_path files
               +:+ " to force re-run" +:+ nl)].

(** The runs of [main]. *)
Inductive run (argv0 : string) (parsed : string + options) (w : W) (o : out unit) : Prop :=
  | run_bad_options (message : string) :
      parsed = inl message →
      o = Out (Exit 1) (Proc w false)
              [Stderr ("failed to parse options: " +:+ message +:+ nl)] →
      run argv0 parsed w o
  | run_usage (rootdir : option string) (files : option (list string)) :
      parsed = inr (Options rootdir files) →
      called_as_generator argv0 = true →
      bad_generator_args files = true →
      o = Out (Exit 1) (Proc w false)
              [Stderr (argv0 +:+ " can not be called directly, use 'netplan generate'.")] →
      run argv0 parsed w o
  | run_already_ran (rootdir : option string) (files : option (list string)) :
      parsed = inr (Options rootdir files) →
      called_as_generator argv0 = true →
      bad_generator_args files = false →
      g_access E (stamp_path files) w = 0 →
      o = skipped files w →
      run argv0 parsed w o
  | run_generation (rootdir : option string) (files : option (list string)) :
      parsed = inr (Options rootdir files) →
      guard_passed argv0 files w →
      generation (called_as_generator argv0) rootdir files w o →
      run argv0 parsed w o.

(** *** Vocabulary of the further statements *)

(** The return code of [glob] that [main] treats as an error. *)
Definition glob_fails (pattern : string) (w : W) : Prop :=
  (glob E pattern w).1 ≠ 0 ∧ (glob E pattern w).1 ≠ GLOB_NOMATCH.

(** The run that ends on a failed [glob] of [pattern]. *)
Definition glob_failure (pattern : string) (w : W) : out () :=
  Out (Exit 1) (Proc w false)
      [Stderr ("failed to glob for " +:+ pattern +:+ ": " +:+ strerror_errno E w +:+ nl)].

(** The environment the parses of [l], one after the other, make of [w]. *)
Definition parsed_world (l : list string) (w : W) : W :=
  foldl (λ w f, (parse_yaml E f w).2) w l.

(** Every source of [l] parses, each in the environment the one before
    left. *)
Fixpoint ingestible (l : list string) (w : W) : Prop :=
  match l with
  | [] => True
  | f :: l' => (parse_yaml E f w).1 = None ∧ ingestible l' (parse_yaml E f w).2
  end.

(** A run started in [w] gets as far as backend generation: where [main]
    globs no [glob] fails, every source parses, and [finish_parse]
    succeeds. *)
Definition reaches_generation (gen : bool) (rootdir : option string)
    (files : option (list string)) (w : W) : Prop :=
  (discovery_mode gen files →
   ¬ glob_fails (glob_pattern rootdir "/lib/netplan/*.yaml") w
   ∧ ¬ glob_fails (glob_pattern rootdir "/etc/netplan/*.yaml") w
   ∧ ¬ glob_fails (glob_pattern rootdir "/run/netplan/*.yaml") w)
  ∧ ingestible (sources_of gen rootdir files w) w
  ∧ (finish_parse E (parsed_world (sources_of gen rootdir files w) w)).1 = true.

(** The environment in which backend generation starts in such a run: what
    the two cleanups make of the environment [finish_parse] left. *)
Definition generation_world (gen : bool) (rootdir : option string)
    (files : option (list string)) (w : W) : W :=
  cleanup_nm_conf E rootdir
    (cleanup_networkd_conf E rootdir
       (finish_parse E (parsed_world (sources_of gen rootdir files w) w)).2).

(** The per-definition writer calls, in call order: which definition, which
    backend. *)
Definition per_definition_writes (tr : list event) : list (ND * netdef_backend) :=
  omap (λ e, match e with
             | WriteNetworkdConf d _ _ => Some (d, BACKEND_NETWORKD)
             | WriteNmConf d _ => Some (d, BACKEND_NM)
             | _ => None
             end) tr.

Definition per_definition_event (e : event) : Prop :=
  match e with
  | WriteNetworkdConf _ _ _ | WriteNmConf _ _ => True
  | _ => False
  end.

Definition global_event (e : event) : Prop :=
  match e with
  | WriteNetworkdGlobalIpRoute _ _ _ | WriteNetworkdGlobalIpRule _ _ _ => True
  | _ => False
  end.

(** The root directory a call was given, for the calls that take one. *)
Definition event_rootdir (e : event) : option (option string) :=
  match e with
  | CleanupNetworkdConf r | CleanupNmConf r | WriteNetworkdConf _ r _ | WriteNmConf _ r
  | WriteNmConfFinish r | WriteNetworkdGlobalIpRoute _ r _
  | WriteNetworkdGlobalIpRule _ r _ | StringFreeToFile r _ => Some r
  | _ => None
  end.

End Generate.

(** ** A small concrete environment

    Sources are named files holding either a malformed document or three
    lists of entries; every entry says whether networkd renders it.  The
    writers record the files they generate, the cleanups delete them. *)

Module Sample.

Inductive yaml :=
  | Malformed (message : string)
  | Config (defs routes rules : list (string * bool)).

Record sys := Sys {
  sources : list (string * yaml);            (* YAML files on disk *)
  others : list string;                      (* other existing files *)
  generated : list (netdef_backend * string);(* backend output on disk *)
  read_only : bool;                          (* creating files fails *)
  tab_netdefs : GHashTable bool;
  tab_routing : GHashTable bool;
  tab_rules : GHashTable bool;
  renderer : netdef_backend;
}.

Definition lookup_source (f : string) (l : list (string * yaml)) : option yaml :=
  (λ kv, kv.2) <$> list_find (λ kv, kv.1 = f) l ≫= (λ r, Some r.2).

Definition extend (t : GHashTable bool) (l : list (string * bool)) : GHashTable bool :=
  match l with
  | [] => t
  | _ => Some (default [] t ++ l)
  end.

Definition s_parse_yaml (f : string) (w : sys) : option string * sys :=
  match lookup_source f (sources w) with
  | None => (Some ("Cannot open " +:+ f), w)
  | Some (Malformed message) => (Some message, w)
  | Some (Config d r u) =>
      (None, Sys (sources w) (others w) (generated w) (read_only w)
                 (extend (tab_netdefs w) d) (extend (tab_routing w) r)
                 (extend (tab_rules w) u) (renderer w))
  end.

Definition add_output (b : netdef_backend) (name : string) (w : sys) : sys :=
  Sys (sources w) (others w) ((b, name) :: generated w) (read_only w)
      (tab_netdefs w) (tab_routing w) (tab_rules w) (renderer w).

Definition drop_outputs (b : netdef_backend) (w : sys) : sys :=
  Sys (sources w) (others w) (filter (λ o, o.1 ≠ b) (generated w)) (read_only w)
      (tab_netdefs w) (tab_routing w) (tab_rules w) (renderer w).

Definition s_write_networkd (kind : string) (networkd : bool) (w : sys) : bool * sys :=
  (networkd, if networkd then add_output BACKEND_NETWORKD kind w else w).

Definition last_slash (p : string) : string :=
  (fix go (p acc : string) : string :=
     match p with
     | EmptyString => acc
     | String c rest => if decide (c = Ascii.ascii_of_nat 47) then go rest rest else go rest acc
     end) p p.

Definition ends_with (suffix p : string) : bool :=
  bool_decide (String.substring (String.length p - String.length suffix)
                                (String.length suffix) p = suffix).

(** [glob] for the patterns of [main], which all end in [*.yaml]. *)
Definition s_glob (pattern : string) (w : sys) : Z * list string :=
  let dir := String.substring 0 (String.length pattern - 6) pattern in
  let found := filter (λ p, String.prefix dir p = true ∧ dir +:+ last_slash p = p
                            ∧ ends_with ".yaml" p = true) (sources w).*1 in
  match found with
  | [] => (GLOB_NOMATCH, [])
  | _ => (0, found)
  end.

Definition s_fopen_w (path : string) (w : sys) : option sys :=
  if read_only w then None
  else Some (Sys (sources w) (path :: others w) (generated w) (read_only w)
                 (tab_netdefs w) (tab_routing w) (tab_rules w) (renderer w)).

Definition s_enable_networkd (dir : string) (w : sys) : option sys :=
  if read_only w then None
  else Some (Sys (sources w)
                 ((dir +:+ "/multi-user.target.wants/systemd-networkd.service") :: others w)
                 (generated w) (read_only w)
                 (tab_netdefs w) (tab_routing w) (tab_rules w) (renderer w)).

Definition env : @Env sys bool bool bool := {|
  parse_yaml := s_parse_yaml;
  finish_parse := λ w, (true, w);
  netdefs := tab_netdefs;
  ip_routing := tab_routing;
  ip_rules := tab_rules;
  get_global_backend := renderer;
  write_networkd_conf := λ d _, s_write_networkd "netdef" d;
  write_networkd_global_ip_route := λ r _, s_write_networkd "route" r;
  write_networkd_global_ip_rule := λ r _, s_write_networkd "rule" r;
  cleanup_networkd_conf := λ _, drop_outputs BACKEND_NETWORKD;
  enable_networkd := s_enable_networkd;
  write_nm_conf := λ d _ w, if d : bool then w else add_output BACKEND_NM "netdef" w;
  write_nm_conf_finish := λ _ w, w;
  cleanup_nm_conf := λ _, drop_outputs BACKEND_NM;
  g_string_free_to_file := λ _ _ path _, add_output BACKEND_NM path;
  g_build_path := λ sep parts, default EmptyString (head parts) +:+ sep
                               +:+ default EmptyString (last parts);
  g_path_get_basename := last_slash;
  g_spawn_sync := λ _ w, w;
  glob := s_glob;
  strerror_errno := λ _, "Permission denied";
  g_access := λ path w, if bool_decide (path ∈ others w ∨ path ∈ (sources w).*1) then 0 else -1;
  fopen_w := s_fopen_w;
|}.

Definition with_sources (l : list (string * yaml)) : sys :=
  Sys l [] [] false None None None BACKEND_NETWORKD.

Definition generator : string := "/lib/systemd/system-generators/netplan".
Definition three_dirs : option (list string) := Some ["/run/gen"; "/run/gen.early"; "/run/gen.late"].

(** [10-a.yaml] exists in /lib and /etc, [05-b.yaml] only in /run; a file in
    a subdirectory is not matched.  An output of an earlier run is left. *)
Definition tiers : sys :=
  Sys [("//etc/netplan/10-a.yaml", Config [("eth0", true)] [] []);
       ("//lib/netplan/10-a.yaml", Config [("eth1", false)] [] []);
       ("//run/netplan/05-b.yaml", Config [("eth2", false)] [("r", true)] []);
       ("//etc/netplan/sub/x.yaml", Malformed "not matched")]
      [] [(BACKEND_NETWORKD, "old.network")] false None None None BACKEND_NETWORKD.

(** One definition, rendered by NetworkManager only. *)
Definition nm_only : sys :=
  with_sources [("//etc/netplan/01-wifi.yaml", Config [("wlan0", false)] [] [])].


(** The second of three files is malformed. *)
Definition broken : sys :=
  with_sources [("//etc/netplan/01-ok.yaml", Config [("eth0", true)] [] []);
                ("//etc/netplan/02-bad.yaml", Malformed "mapping values are not allowed here");
                ("//etc/netplan/03-late.yaml", Config [("eth1", true)] [] [])].

(** *** Output named after root directory and definition

    [named] is [env] with definitions that carry their id, writers that name
    the file they generate after the root directory and that id, and
    cleanups that delete the generated files below the root directory. *)

Definition networkd_path (rootdir : option string) (id : string) : string :=
  default "" rootdir +:+ "/run/systemd/network/10-netplan-" +:+ id +:+ ".network".

Definition nm_path (rootdir : option string) (id : string) : string :=
  default "" rootdir +:+ "/run/NetworkManager/system-connections/netplan-" +:+ id.

Definition n_netdefs (w : sys) : GHashTable (string * bool) :=
  match tab_netdefs w with
  | Some entries => Some ((λ kv : string * bool, (kv.1, (kv.1, kv.2))) <$> entries)
  | None => None
  end.

Definition n_write_networkd_conf (d : string * bool) (rootdir : option string) (w : sys)
    : bool * sys :=
  (d.2, if d.2 then add_output BACKEND_NETWORKD (networkd_path rootdir d.1) w else w).

Definition n_write_nm_conf (d : string * bool) (rootdir : option string) (w : sys) : sys :=
  if d.2 then w else add_output BACKEND_NM (nm_path rootdir d.1) w.

Definition n_cleanup (b : netdef_backend) (dir : string) (w : sys) : sys :=
  Sys (sources w) (others w)
      (filter (λ o, ¬ (o.1 = b ∧ String.prefix dir o.2 = true)) (generated w))
      (read_only w) (tab_netdefs w) (tab_routing w) (tab_rules w) (renderer w).

Definition named : @Env sys (string * bool) bool bool := {|
  parse_yaml := s_parse_yaml;
  finish_parse := λ w, (true, w);
  netdefs := n_netdefs;
  ip_routing := tab_routing;
  ip_rules := tab_rules;
  get_global_backend := renderer;
  write_networkd_conf := n_write_networkd_conf;
  write_networkd_global_ip_route := λ r rootdir, s_write_networkd (networkd_path rootdir "routes") r;
  write_networkd_global_ip_rule := λ r rootdir, s_write_networkd (networkd_path rootdir "rules") r;
  cleanup_networkd_conf := λ rootdir,
    n_cleanup BACKEND_NETWORKD (default "" rootdir +:+ "/run/systemd/network/10-netplan-");
  enable_networkd := s_enable_networkd;
  write_nm_conf := n_write_nm_conf;
  write_nm_conf_finish := λ _ w, w;
  cleanup_nm_conf := λ rootdir,
    n_cleanup BACKEND_NM (default "" rootdir +:+ "/run/NetworkManager/system-connections/netplan-");
  g_string_free_to_file := λ _ rootdir path _, add_output BACKEND_NM (default "" rootdir +:+ path);
  g_build_path := g_build_path env;
  g_path_get_basename := last_slash;
  g_spawn_sync := λ _ w, w;
  glob := s_glob;
  strerror_errno := strerror_errno env;
  g_access := g_access env;
  fopen_w := s_fopen_w;
|}.

(** An earlier run has written the files of a definition [old]; the sources
    now define [eth0] and [wlan0] only. *)
Definition upgraded : sys :=
  Sys [("//etc/netplan/01-net.yaml", Config [("eth0", true); ("wlan0", false)] [("r", true)] [])]
      []
      [(BACKEND_NETWORKD, networkd_path None "old"); (BACKEND_NM, nm_path None "old");
       (BACKEND_NETWORKD, networkd_path None "eth0")]
      false None None None BACKEND_NM.

(** No file of the definition [old] is left, and the parser's table holds
    no definition of that name. *)
Definition old_is_gone (w : sys) : Prop :=
  ((BACKEND_NETWORKD, networkd_path None "old") ∉ generated w)
  ∧ ((BACKEND_NM, nm_path None "old") ∉ generated w)
  ∧ "old" ∉ (default [] (tab_netdefs w)).*1.

(** A definition, rendered by NetworkManager, on a file system where
    nothing can be created. *)
Definition nm_only_read_only : sys :=
  Sys (sources nm_only) [] [] true None None None BACKEND_NETWORKD.

(** [env] with another [glob] and another [finish_parse]. *)
Definition env_with (g : string → sys → Z * list string) (fp : sys → bool * sys)
    : @Env sys bool bool bool := {|
  parse_yaml := parse_yaml env;
  finish_parse := fp;
  netdefs := netdefs env;
  ip_routing := ip_routing env;
  ip_rules := ip_rules env;
  get_global_backend := get_global_backend env;
  write_networkd_conf := write_networkd_conf env;
  write_networkd_global_ip_route := write_networkd_global_ip_route env;
  write_networkd_global_ip_rule := write_networkd_global_ip_rule env;
  cleanup_networkd_conf := cleanup_networkd_conf env;
  enable_networkd := enable_networkd env;
  write_nm_conf := write_nm_conf env;
  write_nm_conf_finish := write_nm_conf_finish env;
  cleanup_nm_conf := cleanup_nm_conf env;
  g_string_free_to_file := g_string_free_to_file env;
  g_build_path := g_build_path env;
  g_path_get_basename := g_path_get_basename env;
  g_spawn_sync := g_spawn_sync env;
  glob := g;
  strerror_errno := strerror_errno env;
  g_access := g_access env;
  fopen_w := fopen_w env;
|}.

(** /etc/netplan cannot be read: [glob] returns GLOB_ABORTED there. *)
Definition glob_denied (pattern : string) (w : sys) : Z * list string :=
  if bool_decide (pattern = "//etc/netplan/*.yaml") then (2, []) else s_glob pattern w.

(** [finish_parse] rejects a model with more than one definition. *)
Definition finish_single (w : sys) : bool * sys :=
  (bool_decide (length (default [] (tab_netdefs w)) ≤ 1)%nat, w).

(** No source file at all. *)
Definition nothing : sys := with_sources [].

(** [tiers] on a file system where nothing can be created. *)
Definition tiers_read_only : sys :=
  Sys (sources tiers) [] (generated tiers) true None None None BACKEND_NM.

End Sample.


(** * Properties *)

(** ** The order [strcmp] sorts by *)

Lemma byte_of_inj c1 c2 : byte_of c1 = byte_of c2 → c1 = c2.
Proof.
  unfold byte_of. intros H%(inj Z.of_N).
  rewrite <-(Ascii.ascii_N_embedding c1), <-(Ascii.ascii_N_embedding c2).
  by f_equal.
Qed.

Lemma strcmp_swap a b : strcmp b a = - strcmp a b.
Proof.
  revert b. induction a as [|c a IH]; intros [|d b]; simpl; try done.
  destruct (decide (c = d)) as [->|Hne].
  - rewrite decide_True by done. apply IH.
  - rewrite decide_False by congruence. lia.
Qed.

Lemma strcmp_eq a b : strcmp a b = 0 ↔ a = b.
Proof.
  revert b. induction a as [|c a IH]; intros [|d b]; simpl; try done.
  destruct (decide (c = d)) as [->|Hne].
  - rewrite IH. split; [by intros ->|by intros [= ->]].
  - split; [|by intros [= -> ->]]. intros H. destruct Hne. apply byte_of_inj. lia.
Qed.

Lemma strcmp_le_trans a b c : strcmp a b ≤ 0 → strcmp b c ≤ 0 → strcmp a c ≤ 0.
Proof.
  revert b c. induction a as [|x a IH]; intros [|y b] [|z c]; simpl; try lia.
  destruct (decide (x = y)) as [->|Hxy], (decide (y = z)) as [->|Hyz].
  - apply IH.
  - done.
  - rewrite decide_False by done. done.
  - intros ??. destruct (decide (x = z)) as [->|Hxz]; [|lia].
    destruct Hxy. apply byte_of_inj. lia.
Qed.

Global Instance strcmp_le_transitive : Transitive strcmp_le.
Proof. intros a b c. apply strcmp_le_trans. Qed.

Global Instance strcmp_le_total : Total strcmp_le.
Proof. intros a b. unfold strcmp_le. rewrite (strcmp_swap a b). lia. Qed.

Global Instance strcmp_le_antisymm : AntiSymm (=) strcmp_le.
Proof.
  intros a b. unfold strcmp_le. rewrite (strcmp_swap a b). intros ??.
  apply strcmp_eq. lia.
Qed.

Lemma strcmp_lt_le_ne a b : strcmp_lt a b ↔ strcmp_le a b ∧ a ≠ b.
Proof. unfold strcmp_lt, strcmp_le. rewrite <-strcmp_eq. lia. Qed.

(** A duplicate-free list sorted by [strcmp_le] is strictly ascending. *)
Lemma StronglySorted_strcmp_lt (l : list string) :
  NoDup l → StronglySorted strcmp_le l → StronglySorted strcmp_lt l.
Proof.
  induction 2 as [|x l Hl IH Hx]; [constructor|].
  apply NoDup_cons in H as [Hnotin Hnd]. constructor; [by apply IH|].
  rewrite Forall_forall in Hx |- *. intros y Hy.
  apply strcmp_lt_le_ne. split; [by apply Hx|]. intros ->. done.
Qed.

Lemma string_length_app (s t : string) :
  String.length (s +:+ t) = (String.length s + String.length t)%nat.
Proof. induction s as [|c s IH]; simpl; [done|]. by rewrite IH. Qed.

Lemma string_app_inj_r (s1 s2 t : string) : s1 +:+ t = s2 +:+ t → s1 = s2.
Proof.
  revert s2. induction s1 as [|c s1 IH]; intros [|c2 s2] H.
  - done.
  - apply (f_equal String.length) in H. rewrite !string_length_app in H. simpl in H. lia.
  - apply (f_equal String.length) in H. rewrite !string_length_app in H. simpl in H. lia.
  - simpl in H. injection H as -> H. f_equal. by apply IH.
Qed.

Lemma g_list_sort_perm keys : g_list_sort keys ≡ₚ keys.
Proof. apply merge_sort_Permutation. Qed.

Lemma g_list_sort_sorted keys : NoDup keys → StronglySorted strcmp_lt (g_list_sort keys).
Proof.
  intros Hnd. apply StronglySorted_strcmp_lt.
  - by rewrite g_list_sort_perm.
  - apply StronglySorted_merge_sort; apply _.
Qed.

(** ** Discovery: the [configs] table and the order of its keys *)

Section Discovery.
Context {W ND RT RL : Type} (E : @Env W ND RT RL).

Local Abbreviation basename := (g_path_get_basename E).

Lemma filter_is_nil {A} (P : A → Prop) `{!∀ x, Decision (P x)} (l : list A) :
  (∀ x, x ∈ l → ¬ P x) → filter P l = [].
Proof.
  induction l as [|a l IH]; intros Hno; [done|].
  rewrite filter_cons, decide_False by (apply Hno; left).
  apply IH. intros x Hx. apply Hno. by right.
Qed.

Lemma winner_cons p gl b :
  winner E (p :: gl) b =
    match winner E gl b with
    | Some q => Some q
    | None => if decide (basename p = b) then Some p else None
    end.
Proof.
  unfold winner. rewrite filter_cons. case_decide.
  - by rewrite last_cons.
  - by destruct (last _).
Qed.

Lemma winner_app gl1 gl2 b :
  winner E (gl1 ++ gl2) b =
    match winner E gl2 b with
    | Some q => Some q
    | None => winner E gl1 b
    end.
Proof. unfold winner. by rewrite filter_app, last_app. Qed.

Lemma winner_Some gl b p : winner E gl b = Some p → p ∈ gl ∧ basename p = b.
Proof.
  unfold winner. intros H%last_Some_elem_of.
  by apply list_elem_of_filter in H as [??].
Qed.

Lemma winner_None gl b : winner E gl b = None ↔ b ∉ basename <$> gl.
Proof.
  unfold winner. rewrite last_None, list_elem_of_fmap. split.
  - intros Hnil (p & -> & Hp).
    assert (p ∈ filter (λ q, basename q = basename p) gl) as Hin
      by by apply list_elem_of_filter.
    rewrite Hnil in Hin. by apply elem_of_nil in Hin.
  - intros Hno. apply filter_is_nil.
    intros p Hp <-. apply Hno. eauto.
Qed.

Lemma winner_is_Some gl b : b ∈ basename <$> gl → is_Some (winner E gl b).
Proof.
  intros Hin. destruct (winner E gl b) eqn:Hw; [by eexists|].
  by apply winner_None in Hw.
Qed.

Lemma lookup_foldl_insert gl (configs : gmap string string) b :
  foldl (λ m path, g_hash_table_insert (basename path) path m) configs gl !! b =
    match winner E gl b with
    | Some p => Some p
    | None => configs !! b
    end.
Proof.
  revert configs. induction gl as [|p gl IH]; intros configs; simpl; [done|].
  rewrite IH, winner_cons. destruct (winner E gl b); [done|].
  unfold g_hash_table_insert. rewrite lookup_insert. by repeat case_decide.
Qed.

(** A lookup in [configs] yields the path inserted last under that key. *)
Lemma lookup_insert_configs gl b : insert_configs E gl !! b = winner E gl b.
Proof.
  unfold insert_configs. rewrite lookup_foldl_insert.
  by destruct (winner E gl b).
Qed.

Lemma get_keys_NoDup (configs : gmap string string) : NoDup (g_hash_table_get_keys configs).
Proof. apply NoDup_fst_map_to_list. Qed.

Lemma elem_of_get_keys (configs : gmap string string) k :
  k ∈ g_hash_table_get_keys configs ↔ is_Some (configs !! k).
Proof.
  unfold g_hash_table_get_keys. rewrite list_elem_of_fmap. split.
  - intros ([k' p] & -> & Hin%elem_of_map_to_list). by eexists.
  - intros [p Hp]. exists (k, p). split; [done|]. by apply elem_of_map_to_list.
Qed.

Lemma elem_of_config_keys gl b :
  b ∈ g_list_sort (g_hash_table_get_keys (insert_configs E gl)) ↔ b ∈ basename <$> gl.
Proof.
  rewrite g_list_sort_perm, elem_of_get_keys, lookup_insert_configs. split.
  - intros [p Hp]. destruct (decide (b ∈ basename <$> gl)) as [|Hno]; [done|].
    apply winner_None in Hno. congruence.
  - apply winner_is_Some.
Qed.

(** Every key is looked up successfully, and the path found carries the key
    as its basename. *)
Lemma basename_omap_configs gl (keys : list string) :
  (∀ k, k ∈ keys → k ∈ basename <$> gl) →
  basename <$> omap (λ key, insert_configs E gl !! key) keys = keys.
Proof.
  induction keys as [|k keys IH]; intros Hkeys; simpl; [done|].
  destruct (winner_is_Some gl k) as [p Hp]; [apply Hkeys; left|].
  rewrite lookup_insert_configs, Hp. simpl. f_equal.
  - by apply winner_Some in Hp as [_ ?].
  - apply IH. intros k' Hk'. apply Hkeys. by right.
Qed.

Lemma basename_config_sources gl :
  basename <$> config_sources E gl =
    g_list_sort (g_hash_table_get_keys (insert_configs E gl)).
Proof.
  unfold config_sources. apply basename_omap_configs.
  intros k. by rewrite elem_of_config_keys.
Qed.

Lemma config_sources_sorted gl :
  StronglySorted strcmp_lt (basename <$> config_sources E gl).
Proof. rewrite basename_config_sources. apply g_list_sort_sorted, get_keys_NoDup. Qed.

Lemma config_sources_NoDup gl : NoDup (basename <$> config_sources E gl).
Proof. rewrite basename_config_sources, g_list_sort_perm. apply get_keys_NoDup. Qed.

Lemma elem_of_config_sources gl p :
  p ∈ config_sources E gl ↔ winner E gl (basename p) = Some p.
Proof.
  unfold config_sources. rewrite list_elem_of_omap. split.
  - intros (k & _ & Hk). rewrite lookup_insert_configs in Hk.
    by destruct (winner_Some _ _ _ Hk) as [_ <-].
  - intros Hw. exists (basename p). rewrite lookup_insert_configs. split; [|done].
    apply elem_of_config_keys. apply winner_Some in Hw as [? _].
    apply list_elem_of_fmap. eauto.
Qed.

Lemma filter_unique {A B} `{EqDecision B} (f : A → B) (l : list A) (x : A) :
  NoDup (f <$> l) → x ∈ l → filter (λ y, f y = f x) l = [x].
Proof.
  induction l as [|a l IH]; intros Hnd Hin; [by apply elem_of_nil in Hin|].
  rewrite fmap_cons in Hnd. apply NoDup_cons in Hnd as [Hnotin Hnd].
  rewrite filter_cons. apply elem_of_cons in Hin as [->|Hin].
  - rewrite decide_True by done. f_equal.
    apply filter_is_nil. intros y Hy Heq.
    apply Hnotin. rewrite <-Heq. apply list_elem_of_fmap. eauto.
  - rewrite decide_False; [by apply IH|].
    intros Heq. apply Hnotin. rewrite Heq. apply list_elem_of_fmap. eauto.
Qed.

(** Exactly one source per basename survives: the winner. *)
Lemma config_sources_one_per_basename gl b p :
  winner E gl b = Some p →
  filter (λ q, basename q = b) (config_sources E gl) = [p].
Proof.
  intros Hw. destruct (winner_Some _ _ _ Hw) as [_ <-].
  apply filter_unique; [apply config_sources_NoDup|].
  by apply elem_of_config_sources.
Qed.

End Discovery.

(** ** Runs of [main] *)

Section Runs.
Context {W ND RT RL : Type} (E : @Env W ND RT RL).
Implicit Types (s : @proc W) (w : W) (tr : list (@event ND RT RL)).

Local Abbreviation sound := (@sound W ND RT RL).
Local Abbreviation total := (@total W ND RT RL).

Lemma out_eta {A} (o : @out W ND RT RL A) : Out (result o) (final o) (emitted o) = o.
Proof. by destruct o. Qed.

Lemma bind_out {A B} (m : @M W ND RT RL A) (k : A → M B) s :
  (m ≫= k) s =
    match result (m s) with
    | Ret a => Out (result (k a (final (m s)))) (final (k a (final (m s))))
                   (emitted (m s) ++ emitted (k a (final (m s))))
    | Exit n => Out (Exit n) (final (m s)) (emitted (m s))
    | Abort => Out Abort (final (m s)) (emitted (m s))
    end.
Proof. reflexivity. Qed.

Lemma bind_pure {A B} (m : @M W ND RT RL A) (k : A → M B) s a :
  m s = Out (Ret a) s [] → (m ≫= k) s = k a s.
Proof. intros Hm. rewrite bind_out, Hm. simpl. apply out_eta. Qed.

Lemma for_each_omap {A B} (g : A → option B) (body : B → @M W ND RT RL ()) (l : list A) s :
  for_each l (λ x, match g x with Some y => body y | None => mret () end) s
  = for_each (omap g l) body s.
Proof.
  revert s. induction l as [|x l IH]; intros s; simpl; [done|].
  destruct (g x) as [y|]; simpl.
  - rewrite !bind_out. destruct (result (body y s)); [|done..]. by rewrite IH.
  - rewrite bind_pure with (a := ()) by done. apply IH.
Qed.

(** *** Transitions compose along the program *)

Section Sound.
Context (T : @transition W ND RT RL) `{!Composable T}.

Lemma sound_ret {A} (a : A) : sound T (mret a).
Proof. intros s. apply compose_nil. Qed.

Lemma sound_bind {A B} (m : M A) (k : A → M B) :
  sound T m → (∀ a, sound T (k a)) → sound T (m ≫= k).
Proof.
  intros Hm Hk s. rewrite bind_out. specialize (Hm s).
  destruct (result (m s)) as [a| |]; simpl; [|done..].
  eapply compose_app; [done|]. apply Hk.
Qed.

Lemma sound_query {A} (f : W → A) : sound T (query f).
Proof. intros s. apply compose_nil. Qed.

Lemma sound_if {A} (b : bool) (m1 m2 : M A) :
  sound T m1 → sound T m2 → sound T (if b then m1 else m2).
Proof. by destruct b. Qed.

Lemma sound_for_each {A} (l : list A) (body : A → M ()) :
  (∀ x, sound T (body x)) → sound T (for_each l body).
Proof.
  intros Hbody. induction l as [|x l IH]; simpl.
  - apply sound_ret.
  - apply sound_bind; [apply Hbody|done].
Qed.

Lemma sound_foreach {V} (table : GHashTable V) func user_data :
  (∀ k v, sound T (func k v user_data)) →
  sound T (g_hash_table_foreach table func user_data).
Proof.
  intros Hf. destruct table as [entries|]; simpl.
  - apply sound_for_each. intros [k v]. apply Hf.
  - apply sound_ret.
Qed.

End Sound.

Lemma total_ret {A} (a : A) : total (mret a).
Proof. intros s. by eexists. Qed.

Lemma total_bind {A B} (m : @M W ND RT RL A) (k : A → M B) :
  total m → (∀ a, total (k a)) → total (m ≫= k).
Proof.
  intros Hm Hk s. rewrite bind_out. destruct (Hm s) as [a ->]. simpl. apply Hk.
Qed.

Lemma total_call {A} (f : W → A * W) ev : total (call f ev : @M W ND RT RL A).
Proof. intros s. by eexists. Qed.

Lemma total_query {A} (f : W → A) : total (query f : @M W ND RT RL A).
Proof. intros s. by eexists. Qed.

Lemma total_for_each {A} (l : list A) (body : A → @M W ND RT RL ()) :
  (∀ x, total (body x)) → total (for_each l body).
Proof.
  intros Hbody. induction l as [|x l IH]; simpl.
  - apply total_ret.
  - apply total_bind; [apply Hbody|done].
Qed.

Lemma total_foreach {V} (table : GHashTable V)
    (func : string → V → option string → @M W ND RT RL ()) user_data :
  (∀ k v, total (func k v user_data)) →
  total (g_hash_table_foreach table func user_data).
Proof.
  intros Hf. destruct table as [entries|]; simpl.
  - apply total_for_each. intros [k v]. apply Hf.
  - apply total_ret.
Qed.

Lemma total_unit (m : @M W ND RT RL ()) s : total m → result (m s) = Ret ().
Proof. intros Hm. by destruct (Hm s) as [[] ->]. Qed.

Global Instance accumulates_composable : Composable (@accumulates W ND RT RL).
Proof.
  split; unfold accumulates.
  - intros s. simpl. by rewrite orb_false_r.
  - intros s1 t1 s2 t2 s3 -> ->. by rewrite existsb_app, orb_assoc.
Qed.

Global Instance emits_composable K : Composable (@emits W ND RT RL K).
Proof.
  split; unfold emits.
  - constructor.
  - intros. by apply Forall_app.
Qed.

(** *** Backend generation *)

Ltac step := unfold call_, call, set_any_networkd; rewrite ?bind_out; simpl.

Lemma nd_iterator_accumulates k v ud : sound accumulates (nd_iterator E k v ud).
Proof.
  intros s. unfold accumulates, nd_iterator. step.
  destruct (write_networkd_conf E v ud (world s)).1; simpl;
    by rewrite ?orb_true_r, ?orb_false_r.
Qed.

Lemma routing_iterator_accumulates k v ud : sound accumulates (routing_iterator E k v ud).
Proof.
  intros s. unfold accumulates, routing_iterator. step.
  destruct (write_networkd_global_ip_route E v ud (world s)).1; simpl;
    by rewrite ?orb_true_r, ?orb_false_r.
Qed.

Lemma rule_iterator_accumulates k v ud : sound accumulates (rule_iterator E k v ud).
Proof.
  intros s. unfold accumulates, rule_iterator. step.
  destruct (write_networkd_global_ip_rule E v ud (world s)).1; simpl;
    by rewrite ?orb_true_r, ?orb_false_r.
Qed.

Lemma call__accumulates f ev :
  managed_output ev = false → sound accumulates (call_ (ND:=ND) (RT:=RT) (RL:=RL) f ev).
Proof. intros Hev s. unfold accumulates. simpl. by rewrite Hev, orb_false_r. Qed.

Lemma write_global_routing_accumulates ud routing rules :
  sound accumulates (write_global_routing E ud routing rules).
Proof.
  apply sound_bind; [apply _| |intros _];
    apply sound_foreach; try apply _; intros k v.
  - apply routing_iterator_accumulates.
  - apply rule_iterator_accumulates.
Qed.

Lemma generate_accumulates rootdir : sound accumulates (generate_backend_files E rootdir).
Proof.
  unfold generate_backend_files.
  apply sound_bind; [apply _|apply sound_query, _|intros table].
  apply sound_if; [|apply sound_ret, _].
  apply sound_bind; [apply _| |intros _].
  { apply sound_foreach; [apply _|]. intros k v. apply nd_iterator_accumulates. }
  apply sound_bind; [apply _|by apply call__accumulates|intros _].
  apply sound_bind; [apply _|apply sound_query, _|intros routing].
  apply sound_bind; [apply _|apply sound_query, _|intros rules].
  apply sound_bind; [apply _|apply write_global_routing_accumulates|intros _].
  by apply call__accumulates.
Qed.

Lemma call_emits {A} K (f : W → A * W) ev :
  (∀ a, K (ev a)) → sound (emits K) (call f ev).
Proof. intros Hev s. unfold emits. simpl. by repeat constructor. Qed.

Lemma nd_iterator_emits k v ud : sound (emits generation_event) (nd_iterator E k v ud).
Proof.
  intros s. unfold emits, nd_iterator. step.
  destruct (write_networkd_conf E v ud (world s)).1; simpl;
    repeat constructor; by left.
Qed.

Lemma routing_iterator_emits k v ud :
  sound (emits generation_event) (routing_iterator E k v ud).
Proof.
  intros s. unfold emits, routing_iterator. step.
  destruct (write_networkd_global_ip_route E v ud (world s)).1; simpl;
    repeat constructor; by left.
Qed.

Lemma rule_iterator_emits k v ud :
  sound (emits generation_event) (rule_iterator E k v ud).
Proof.
  intros s. unfold emits, rule_iterator. step.
  destruct (write_networkd_global_ip_rule E v ud (world s)).1; simpl;
    repeat constructor; by left.
Qed.

Lemma generate_emits rootdir :
  sound (emits generation_event) (generate_backend_files E rootdir).
Proof.
  unfold generate_backend_files.
  apply sound_bind; [apply _|apply sound_query, _|intros table].
  apply sound_if; [|apply sound_ret, _].
  apply sound_bind; [apply _| |intros _].
  { apply sound_foreach; [apply _|]. intros k v. apply nd_iterator_emits. }
  apply sound_bind; [apply _|apply call_emits; by left|intros _].
  apply sound_bind; [apply _|apply sound_query, _|intros routing].
  apply sound_bind; [apply _|apply sound_query, _|intros rules].
  apply sound_bind; [apply _| |intros _].
  { apply sound_bind; [apply _| |intros _];
      apply sound_foreach; try apply _; intros k v.
    - apply routing_iterator_emits.
    - apply rule_iterator_emits. }
  apply call_emits. by right.
Qed.

Lemma nd_iterator_total k v ud : total (nd_iterator E k v ud).
Proof.
  intros s. unfold nd_iterator. step.
  destruct (write_networkd_conf E v ud (world s)).1; by eexists.
Qed.

Lemma routing_iterator_total k v ud : total (routing_iterator E k v ud).
Proof.
  intros s. unfold routing_iterator. step.
  destruct (write_networkd_global_ip_route E v ud (world s)).1; by eexists.
Qed.

Lemma rule_iterator_total k v ud : total (rule_iterator E k v ud).
Proof.
  intros s. unfold rule_iterator. step.
  destruct (write_networkd_global_ip_rule E v ud (world s)).1; by eexists.
Qed.

Lemma write_global_routing_total ud routing rules :
  total (write_global_routing E ud routing rules).
Proof.
  apply total_bind; [|intros _]; apply total_foreach; intros k v.
  - apply routing_iterator_total.
  - apply rule_iterator_total.
Qed.

Lemma generate_total rootdir : total (generate_backend_files E rootdir).
Proof.
  unfold generate_backend_files.
  apply total_bind; [apply total_query|intros table].
  case_bool_decide; [|apply total_ret].
  apply total_bind; [|intros _].
  { apply total_foreach. intros k v. apply nd_iterator_total. }
  apply total_bind; [apply total_call|intros _].
  apply total_bind; [apply total_query|intros routing].
  apply total_bind; [apply total_query|intros rules].
  apply total_bind; [apply write_global_routing_total|intros _].
  apply total_call.
Qed.

(** *** The global writers: one call per entry *)


Lemma for_each_cons_total {A} (body : A → @M W ND RT RL ()) x l s :
  total (body x) →
  emitted (for_each (x :: l) body s)
    = emitted (body x s) ++ emitted (for_each l body (final (body x s)))
  ∧ final (for_each (x :: l) body s) = final (for_each l body (final (body x s)))
  ∧ result (for_each (x :: l) body s) = result (for_each l body (final (body x s))).
Proof. intros Hb. simpl. rewrite bind_out, (total_unit _ _ Hb). done. Qed.





(** With a NULL [netdefs] nothing at all is called. *)
Lemma generate_none rootdir s :
  netdefs E (world s) = None →
  generate_backend_files E rootdir s = Out (Ret ()) s [].
Proof.
  intros Hn. unfold generate_backend_files. rewrite bind_out. simpl.
  by rewrite Hn, bool_decide_false by naive_solver.
Qed.

(** With a table, the per-definition writers run first, then
    [write_nm_conf_finish], then [write_global_routing] on the two global
    tables as they are at that point, then [reload_udevd]. *)
Lemma generate_some rootdir s :
  netdefs E (world s) ≠ None →
  let o1 := g_hash_table_foreach (netdefs E (world s)) (nd_iterator E) rootdir s in
  let s1 := Proc (write_nm_conf_finish E rootdir (world (final o1))) (any_networkd (final o1)) in
  let o2 := write_global_routing E rootdir (ip_routing E (world s1)) (ip_rules E (world s1)) s1 in
  emitted (generate_backend_files E rootdir s)
    = emitted o1 ++ [WriteNmConfFinish rootdir] ++ emitted o2 ++ [reload_event].
Proof.
  intros Hn. cbv zeta. unfold generate_backend_files. rewrite bind_out. simpl.
  rewrite bool_decide_true by done. rewrite bind_out.
  rewrite (total_unit _ _ (total_foreach _ _ _ (λ k v, nd_iterator_total k v rootdir))).
  simpl. do 2 f_equal. rewrite bind_out.
  by rewrite (total_unit _ _ (write_global_routing_total _ _ _)).
Qed.

(** The environment backend generation leaves, with a table. *)
Lemma generate_some_world rootdir s :
  netdefs E (world s) ≠ None →
  let o1 := g_hash_table_foreach (netdefs E (world s)) (nd_iterator E) rootdir s in
  let s1 := Proc (write_nm_conf_finish E rootdir (world (final o1))) (any_networkd (final o1)) in
  let o2 := write_global_routing E rootdir (ip_routing E (world s1)) (ip_rules E (world s1)) s1 in
  world (final (generate_backend_files E rootdir s))
    = g_spawn_sync E ["/sbin/udevadm"; "control"; "--reload"] (world (final o2)).
Proof.
  intros Hn. cbv zeta. unfold generate_backend_files. rewrite bind_out. simpl.
  rewrite bool_decide_true by done. rewrite bind_out.
  rewrite (total_unit _ _ (total_foreach _ _ _ (λ k v, nd_iterator_total k v rootdir))).
  simpl. rewrite bind_out.
  by rewrite (total_unit _ _ (write_global_routing_total _ _ _)).
Qed.

Section Keeps.
Context (P : W → Prop) (rootdir : option string) (HP : writers_keep E P rootdir).

Lemma for_each_keeps {A} (l : list A) (body : A → M ()) s :
  (∀ x, total (body x)) →
  (∀ x s, x ∈ l → P (world s) → P (world (final (body x s)))) →
  P (world s) → P (world (final (for_each l body s))).
Proof.
  intros Htot. revert s. induction l as [|x l IH]; intros s Hbody Hs; [done|].
  destruct (for_each_cons_total body x l s (Htot x)) as (_ & -> & _).
  apply IH.
  - intros y s' Hy. apply Hbody. by right.
  - apply Hbody; [by left|done].
Qed.

Lemma foreach_keeps {V} (table : GHashTable V) func s :
  (∀ k v, total (func k v rootdir)) →
  (∀ k v s, v ∈ table_values table → P (world s) → P (world (final (func k v rootdir s)))) →
  P (world s) → P (world (final (g_hash_table_foreach table func rootdir s))).
Proof.
  intros Htot Hf Hs. destruct table as [entries|]; [|done]. simpl.
  apply for_each_keeps; [intros [k v]; apply Htot| |done].
  intros [k v] s' Hin. apply Hf. unfold table_values. simpl.
  apply list_elem_of_fmap. by exists (k, v).
Qed.

Lemma nd_iterator_keeps w0 k v s :
  P w0 → v ∈ table_values (netdefs E w0) →
  P (world s) → P (world (final (nd_iterator E k v rootdir s))).
Proof.
  destruct HP as (H1 & H2 & _). intros Hw0 Hv Hs. unfold nd_iterator. step.
  destruct (write_networkd_conf E v rootdir (world s)).1 eqn:Hb; simpl;
    (apply (H2 w0); [done|done|]); by apply (H1 w0).
Qed.

Lemma routing_iterator_keeps w0 k v s :
  P w0 → v ∈ table_values (ip_routing E w0) →
  P (world s) → P (world (final (routing_iterator E k v rootdir s))).
Proof.
  destruct HP as (_ & _ & _ & H4 & _). intros Hw0 Hv Hs. unfold routing_iterator. step.
  destruct (write_networkd_global_ip_route E v rootdir (world s)).1 eqn:Hb; simpl;
    by apply (H4 w0).
Qed.

Lemma rule_iterator_keeps w0 k v s :
  P w0 → v ∈ table_values (ip_rules E w0) →
  P (world s) → P (world (final (rule_iterator E k v rootdir s))).
Proof.
  destruct HP as (_ & _ & _ & _ & H5 & _). intros Hw0 Hv Hs. unfold rule_iterator. step.
  destruct (write_networkd_global_ip_rule E v rootdir (world s)).1 eqn:Hb; simpl;
    by apply (H5 w0).
Qed.

Lemma generate_keeps s :
  P (world s) → P (world (final (generate_backend_files E rootdir s))).
Proof.
  pose proof HP as (_ & _ & H3 & _ & _ & H6 & _). intros Hs.
  assert (netdefs E (world s) = None ∨ netdefs E (world s) ≠ None) as [Hn|Hn]
    by (destruct (netdefs E (world s)); [by right|by left]).
  { by rewrite generate_none. }
  rewrite generate_some_world by done. apply H6.
  unfold write_global_routing. rewrite bind_out.
  rewrite (total_unit _ _ (total_foreach _ _ _ (λ k v, routing_iterator_total k v rootdir))).
  cbn [final world].
  assert (P (write_nm_conf_finish E rootdir
               (world (final (g_hash_table_foreach (netdefs E (world s)) (nd_iterator E)
                                rootdir s))))) as Hs1.
  { apply H3. apply foreach_keeps; [intros k v; apply nd_iterator_total| |done].
    intros k v s' Hv. by apply (nd_iterator_keeps (world s)). }
  apply foreach_keeps; [intros k v; apply rule_iterator_total| |].
  { intros k v s' Hv. by eapply rule_iterator_keeps. }
  apply foreach_keeps; [intros k v; apply routing_iterator_total| |done].
  intros k v s' Hv. by eapply routing_iterator_keeps.
Qed.

End Keeps.

(** *** Ingestion *)

Lemma process_input_file_ok f s w' :
  parse_yaml E f (world s) = (None, w') →
  process_input_file E f s = Out (Ret ()) (Proc w' (any_networkd s)) [parse_ok f].
Proof. intros H. unfold process_input_file, call. rewrite bind_out. simpl. by rewrite H. Qed.

Lemma process_input_file_error f s message w' :
  parse_yaml E f (world s) = (Some message, w') →
  process_input_file E f s =
    Out (Exit 1) (Proc w' (any_networkd s)) [ParseYaml f (Some message); Stderr (message +:+ nl)].
Proof. intros H. unfold process_input_file, call. rewrite bind_out. simpl. by rewrite H. Qed.

Lemma for_each_process_spec (l : list string) s :
  ingestion E l (for_each l (process_input_file E) s) ∧
  any_networkd (final (for_each l (process_input_file E) s)) = any_networkd s.
Proof.
  revert s. induction l as [|f l IH]; intros s.
  { split; [|done]. by constructor. }
  simpl. rewrite bind_out.
  destruct (parse_yaml E f (world s)) as [[message|] w'] eqn:Hp.
  - rewrite (process_input_file_error _ _ _ _ Hp). simpl. split; [|done].
    by apply (ingestion_failed E _ _ 0%nat f message (world s)); simpl; [..|rewrite Hp].
  - rewrite (process_input_file_ok _ _ _ Hp). simpl.
    destruct (IH (Proc w' (any_networkd s))) as [Hi Hany]. split; [|done].
    destruct Hi as [Hr He|n g message w0 Hn Hr He Hw0].
    + apply ingestion_done; simpl; [done|]. by rewrite He.
    + apply (ingestion_failed E _ _ (S n) g message w0); simpl; [done..| |done].
      by rewrite He.
Qed.

(** *** The phases of [main] *)

Lemma glob_checked_cases pattern gl s :
  (∃ text, glob_checked E pattern gl s = Out (Exit 1) s [Stderr text])
  ∨ glob_checked E pattern gl s = Out (Ret (gl ++ (glob E pattern (world s)).2)) s [].
Proof.
  unfold glob_checked. rewrite bind_out. simpl. case_bool_decide; simpl; eauto.
Qed.

Lemma read_input_files_cases gen rootdir files s :
  (discovery_mode gen files ∧
   ∃ text, read_input_files E gen rootdir files s = Out (Exit 1) s [Stderr text])
  ∨ read_input_files E gen rootdir files s
    = for_each (sources_of E gen rootdir files (world s)) (process_input_file E) s.
Proof.
  assert (discovery_mode gen files ∨ ∃ strv, files = Some strv ∧ gen = false) as [Hmode|Hdirect].
  { destruct files, gen; unfold discovery_mode; eauto. }
  2:{ destruct Hdirect as (strv & -> & ->). by right. }
  assert (read_input_files E gen rootdir files s =
    (gl ← glob_checked E (glob_pattern rootdir "/lib/netplan/*.yaml") [];
     gl ← glob_checked E (glob_pattern rootdir "/etc/netplan/*.yaml") gl;
     gl ← glob_checked E (glob_pattern rootdir "/run/netplan/*.yaml") gl;
     for_each (g_list_sort (g_hash_table_get_keys (insert_configs E gl)))
       (λ key, match insert_configs E gl !! key with
               | Some path => process_input_file E path
               | None => mret ()
               end)) s) as ->.
  { destruct Hmode as [->| ->]; [done|]. by destruct files. }
  assert (sources_of E gen rootdir files (world s) = discovered E rootdir (world s)) as ->.
  { destruct Hmode as [->| ->]; [done|]. by destruct files. }
  rewrite bind_out.
  destruct (glob_checked_cases (glob_pattern rootdir "/lib/netplan/*.yaml") [] s)
    as [[text ->]| ->]; simpl; [left; eauto|].
  rewrite bind_out.
  destruct (glob_checked_cases (glob_pattern rootdir "/etc/netplan/*.yaml")
              (glob E (glob_pattern rootdir "/lib/netplan/*.yaml") (world s)).2 s)
    as [[text ->]| ->]; simpl; [left; eauto|].
  rewrite bind_out.
  destruct (glob_checked_cases (glob_pattern rootdir "/run/netplan/*.yaml")
              ((glob E (glob_pattern rootdir "/lib/netplan/*.yaml") (world s)).2
               ++ (glob E (glob_pattern rootdir "/etc/netplan/*.yaml") (world s)).2) s)
    as [[text ->]| ->]; simpl; [left; eauto|].
  right. rewrite for_each_omap, out_eta.
  unfold discovered, config_sources, tier_lib, tier_etc, tier_run. by rewrite <-app_assoc.
Qed.

Lemma generator_guard_cases argv0 files s :
  (called_as_generator argv0 = true ∧ bad_generator_args files = true ∧
   generator_guard E argv0 (called_as_generator argv0) files s
   = Out (Exit 1) s [Stderr (argv0 +:+ " can not be called directly, use 'netplan generate'.")])
  ∨ (called_as_generator argv0 = true ∧ bad_generator_args files = false ∧
     g_access E (stamp_path E files) (world s) = 0 ∧
     generator_guard E argv0 (called_as_generator argv0) files s
     = Out (Exit 0) s [Stderr ("netplan generate already ran, remove " +:+ stamp_path E files
                               +:+ " to force re-run" +:+ nl)])
  ∨ (guard_passed E argv0 files (world s) ∧
     generator_guard E argv0 (called_as_generator argv0) files s
     = Out (Ret (stamp_of E (called_as_generator argv0) files)) s []).
Proof.
  unfold generator_guard, guard_passed, stamp_of.
  destruct (called_as_generator argv0); [|right; right; split; [done|done]].
  destruct (bad_generator_args files); [left; done|].
  rewrite bind_out. simpl. case_bool_decide; simpl.
  - right; left. done.
  - right; right. done.
Qed.

Lemma policy_cases rootdir s :
  let o := disable_nm_device_policy E rootdir s in
  let path := "/run/NetworkManager/conf.d/10-globally-managed-devices.conf" in
  result o = Ret () ∧ any_networkd (final o) = any_networkd s ∧
  (o = Out (Ret ()) s []
   ∨ o = Out (Ret ()) (Proc (g_string_free_to_file E "" rootdir path None (world s))
                            (any_networkd s)) [StringFreeToFile rootdir path]).
Proof.
  cbv zeta. unfold disable_nm_device_policy. rewrite bind_out. simpl.
  case_bool_decide; simpl; auto.
Qed.

Lemma generator_finish_true files stamp s :
  let stamped (enable : list event) (w1 : W) : out () :=
    match fopen_w E stamp w1 with
    | Some w' => Out (Ret ()) (Proc w' (any_networkd s)) (enable ++ [Fopen stamp true])
    | None => Out Abort (Proc w1 (any_networkd s)) (enable ++ [Fopen stamp false])
    end in
  generator_finish E true files (Some stamp) s =
    if any_networkd s then
      match enable_networkd E (files_0 files) (world s) with
      | Some w1 => stamped [EnableNetworkd (files_0 files) true] w1
      | None => Out Abort s [EnableNetworkd (files_0 files) false]
      end
    else stamped [] (world s).
Proof.
  cbv zeta. unfold generator_finish, call_enable_networkd, fopen, get_any_networkd. step.
  destruct s as [w [|]]; simpl; rewrite ?bind_out; simpl.
  - destruct (enable_networkd E (files_0 files) w) as [w1|]; simpl; [|done].
    rewrite ?bind_out. simpl. by destruct (fopen_w E stamp w1).
  - by destruct (fopen_w E stamp w).
Qed.

(** How [generator_finish] can end. *)
Lemma generator_finish_cases gen files s :
  let o := generator_finish E gen files (stamp_of E gen files) s in
  let f0 := files_0 files in
  let stamp := stamp_path E files in
  (gen = false ∧ o = Out (Ret ()) s [])
  ∨ (gen = true ∧ any_networkd s = true ∧ enable_networkd E f0 (world s) = None
     ∧ o = Out Abort s [EnableNetworkd f0 false])
  ∨ (gen = true ∧ ∃ enable w1,
       (any_networkd s = true ∧ enable_networkd E f0 (world s) = Some w1
        ∧ enable = [EnableNetworkd f0 true]
        ∨ any_networkd s = false ∧ w1 = world s ∧ enable = [])
       ∧ ((∃ w', fopen_w E stamp w1 = Some w'
                 ∧ o = Out (Ret ()) (Proc w' (any_networkd s)) (enable ++ [Fopen stamp true]))
          ∨ fopen_w E stamp w1 = None
            ∧ o = Out Abort (Proc w1 (any_networkd s)) (enable ++ [Fopen stamp false]))).
Proof.
  cbv zeta. destruct gen; [right|by left]. unfold stamp_of. rewrite generator_finish_true.
  destruct (any_networkd s) eqn:Hany.
  - destruct (enable_networkd E (files_0 files) (world s)) as [w1|] eqn:Hen; [right|by left].
    split; [done|]. exists [EnableNetworkd (files_0 files) true], w1. split; [by left|].
    destruct (fopen_w E _ w1) as [w'|] eqn:Hopen; [left; by exists w'|by right].
  - right. split; [done|]. exists [], (world s). split; [by right|].
    destruct (fopen_w E _ (world s)) as [w'|] eqn:Hopen; [left; by exists w'|by right].
Qed.

(** What [generator_finish] emits, and that it leaves [any_networkd] alone. *)
Lemma generator_finish_events gen files s :
  let o := generator_finish E gen files (stamp_of E gen files) s in
  any_networkd (final o) = any_networkd s
  ∧ ∀ e, e ∈ emitted o →
         (∃ ok, e = EnableNetworkd (files_0 files) ok ∧ gen = true ∧ any_networkd s = true)
         ∨ (∃ ok, e = Fopen (stamp_path E files) ok ∧ gen = true).
Proof.
  cbv zeta.
  destruct (generator_finish_cases gen files s)
    as [[_ ->]|[(Hgen & Hany & _ & ->)
               |(Hgen & enable & w1 & Hen & [(w' & _ & ->)|[_ ->]])]]; simpl.
  - split; [done|]. intros e He. by apply elem_of_nil in He.
  - split; [done|]. intros e He. apply list_elem_of_singleton in He as ->. left. by exists false.
  - split; [done|]. intros e He. apply elem_of_app in He as [He|He].
    + destruct Hen as [(Hany & _ & ->)|(_ & _ & ->)]; [|by apply elem_of_nil in He].
      apply list_elem_of_singleton in He as ->. left. by exists true.
    + apply list_elem_of_singleton in He as ->. right. by exists true.
  - split; [done|]. intros e He. apply elem_of_app in He as [He|He].
    + destruct Hen as [(Hany & _ & ->)|(_ & _ & ->)]; [|by apply elem_of_nil in He].
      apply list_elem_of_singleton in He as ->. left. by exists true.
    + apply list_elem_of_singleton in He as ->. right. by exists false.
Qed.

(** *** Every run of [main] has one of the shapes *)

Lemma main_generation argv0 rootdir files w :
  guard_passed E argv0 files w →
  generation E (called_as_generator argv0) rootdir files w
    (run_main E argv0 (inr (Options rootdir files)) w).
Proof.
  intros Hguard. unfold run_main, main.
  destruct (generator_guard_cases argv0 files (Proc w false))
    as [(Hgen & Hbad & _)|[(Hgen & Hbad & Hacc & _)|[_ Hg]]].
  { destruct (Hguard Hgen). congruence. }
  { destruct (Hguard Hgen). done. }
  rewrite (bind_pure _ _ _ _ Hg). rewrite bind_out.
  set (gen := called_as_generator argv0).
  destruct (read_input_files_cases gen rootdir files (Proc w false))
    as [[Hmode [text ->]]| ->]; simpl.
  { by eapply generation_glob_failed. }
  destruct (for_each_process_spec (sources_of E gen rootdir files w) (Proc w false))
    as [_ Hany].
  set (oi := for_each (sources_of E gen rootdir files w) (process_input_file E)
               (Proc w false)) in *.
  simpl in Hany. rewrite Hany.
  destruct (result oi) as [[]| |] eqn:Hres.
  2:{ apply generation_parse_failed; fold oi; [by rewrite Hres|].
      rewrite <-Hres. by rewrite out_eta. }
  2:{ apply generation_parse_failed; fold oi; [by rewrite Hres|].
      rewrite <-Hres. by rewrite out_eta. }
  destruct (finish_parse E (world (final oi))) as [[|] w2] eqn:Hfp; simpl.
  2:{ by eapply generation_finish_failed. }
  pose (og := generate_backend_files E rootdir (cleaned E rootdir w2)).
  pose (op := disable_nm_device_policy E rootdir (final og)).
  pose (og' := generator_finish E gen files (stamp_of E gen files) (final op)).
  assert (result og = Ret ()) as Hog by apply total_unit, generate_total.
  destruct (policy_cases rootdir (final og)) as (Hop & _ & _). fold op in Hop.
  assert ((generate_backend_files E rootdir;;
           disable_nm_device_policy E rootdir;;
           generator_finish E gen files (stamp_of E gen files);;
           exit 0) (cleaned E rootdir w2)
          = Out (then_exit_0 (result og')) (final og') (emitted og ++ emitted op ++ emitted og')) as Htail.
  { rewrite bind_out. fold og. rewrite Hog, bind_out. fold op. rewrite Hop, bind_out.
    fold og'. destruct (result og'); simpl; by rewrite ?app_nil_r. }
  change (Proc (cleanup_nm_conf E rootdir (cleanup_networkd_conf E rootdir w2)) false)
    with (cleaned E rootdir w2).
  rewrite Htail.
  by apply (generation_dispatched E _ _ _ _ _ oi w2 og op og' eq_refl Hres Hfp
              eq_refl eq_refl eq_refl).
Qed.

Lemma main_run argv0 parsed w : run E argv0 parsed w (run_main E argv0 parsed w).
Proof.
  destruct parsed as [message|[rootdir files]].
  { by eapply run_bad_options. }
  destruct (generator_guard_cases argv0 files (Proc w false))
    as [(Hgen & Hbad & Hg)|[(Hgen & Hbad & Hacc & Hg)|[Hguard _]]].
  - eapply run_usage; try done. unfold run_main, main. by rewrite bind_out, Hg.
  - eapply run_already_ran; try done. unfold run_main, main. by rewrite bind_out, Hg.
  - eapply run_generation; [done..|]. by apply main_generation.
Qed.

(** *** What each phase can emit *)

Lemma ingestion_events l (o : out ()) :
  ingestion E l o → Forall ingestion_event (emitted o).
Proof.
  intros [_ ->|n f message w0 _ _ -> _]; rewrite ?Forall_app, ?Forall_fmap;
    repeat split; try by apply Forall_true.
  by repeat constructor.
Qed.

Lemma generation_event_late (e : @event ND RT RL) : generation_event e → late_event e.
Proof. intros [He| ->]; [|done]. by destruct e. Qed.

Lemma generate_late rootdir s :
  Forall late_event (emitted (generate_backend_files E rootdir s)).
Proof.
  eapply Forall_impl; [apply (generate_emits rootdir s)|]. apply generation_event_late.
Qed.

Lemma policy_late rootdir s :
  Forall late_event (emitted (disable_nm_device_policy E rootdir s)).
Proof.
  destruct (policy_cases rootdir s) as (_ & _ & [-> | ->]); simpl; by repeat constructor.
Qed.

Lemma generator_finish_late gen files s :
  Forall late_event (emitted (generator_finish E gen files (stamp_of E gen files) s)).
Proof.
  apply Forall_forall. intros e He.
  by apply generator_finish_events in He as [(ok & -> & _)|(ok & -> & _)].
Qed.

Lemma generator_finish_flag gen files s :
  any_networkd (final (generator_finish E gen files (stamp_of E gen files) s)) = any_networkd s.
Proof. apply generator_finish_events. Qed.

Lemma ingested_app tr1 tr2 :
  ingested (tr1 ++ tr2) = ingested (ND:=ND) (RT:=RT) (RL:=RL) tr1 ++ ingested tr2.
Proof. apply omap_app. Qed.

Lemma ingested_parse_ok (l : list string) : ingested (ND:=ND) (RT:=RT) (RL:=RL) (parse_ok <$> l) = l.
Proof. induction l as [|f l IH]; [done|]. simpl. f_equal. apply IH. Qed.

Lemma ingested_late tr : Forall late_event tr → ingested tr = [].
Proof.
  induction 1 as [|e tr He _ IH]; [done|]. destruct e; try done; apply IH.
Qed.

(** The sources read are an initial segment of the list; all of it when no
    parse error ended the loop. *)
Lemma ingestion_ingested l (o : out ()) :
  ingestion E l o →
  ingested (emitted o) `prefix_of` l ∧ (result o = Ret () → ingested (emitted o) = l).
Proof.
  intros [Hr ->|n f message w0 Hn Hr -> _].
  - by rewrite ingested_parse_ok.
  - rewrite ingested_app, ingested_parse_ok. simpl. rewrite <-(take_S_r _ _ _ Hn).
    split; [apply prefix_take|]. by rewrite Hr.
Qed.

End Runs.

(** ** The generator calling convention *)

Section Generator.
Context {W ND RT RL : Type} (E : @Env W ND RT RL).

Lemma bad_generator_args_arity (files : option (list string)) :
  (∀ strv, files = Some strv → length strv ≠ 3%nat) → bad_generator_args files = true.
Proof.
  intros H. destruct files as [strv|]; [|done]. simpl.
  specialize (H strv eq_refl). unfold g_strv_length.
  by rewrite bool_decide_true by lia.
Qed.

(** C7: under the generator calling convention, when the number of
    positional arguments is not three (none at all included), the run ends
    with status 1 having only printed the usage message: the environment is
    unchanged, no source is read, no backend call is made and no stamp is
    opened. *)
Theorem generator_wrong_arity argv0 rootdir files w :
  called_as_generator argv0 = true →
  (∀ strv, files = Some strv → length strv ≠ 3%nat) →
  run_main E argv0 (inr (Options rootdir files)) w
  = Out (Exit 1) (Proc w false)
        [Stderr (argv0 +:+ " can not be called directly, use 'netplan generate'.")].
Proof.
  intros Hgen Harity. apply bad_generator_args_arity in Harity.
  destruct (main_run E argv0 (inr (Options rootdir files)) w)
    as [m [=]|r fs [= <- <-] _ _ Ho|r fs [= <- <-] _ Hbad|r fs [= <- <-] Hguard _].
  - done.
  - congruence.
  - destruct (Hguard Hgen). congruence.
Qed.

Lemma generator_stamp_present argv0 rootdir files w :
  called_as_generator argv0 = true →
  bad_generator_args files = false →
  g_access E (stamp_path E files) w = 0 →
  run_main E argv0 (inr (Options rootdir files)) w = skipped E files w.
Proof.
  intros Hgen Hbad Hacc.
  destruct (main_run E argv0 (inr (Options rootdir files)) w)
    as [m [=]|r fs [= <- <-] _ Hbad'|r fs [= <- <-] _ _ _ Ho|r fs [= <- <-] Hguard _].
  - congruence.
  - done.
  - by destruct (Hguard Hgen).
Qed.

(** A generator run that ends with status 0 leaves an environment in which
    the stamp exists, provided a file that [fopen] created exists. *)
Lemma generator_success_stamped argv0 rootdir files w :
  (∀ p w0 w', fopen_w E p w0 = Some w' → g_access E p w' = 0) →
  called_as_generator argv0 = true →
  result (run_main E argv0 (inr (Options rootdir files)) w) = Exit 0 →
  bad_generator_args files = false ∧
  g_access E (stamp_path E files) (world (final (run_main E argv0 (inr (Options rootdir files)) w))) = 0.
Proof.
  intros Hfopen Hgen.
  destruct (main_run E argv0 (inr (Options rootdir files)) w)
    as [m [=]|r fs [= <- <-] _ _ ->|r fs [= <- <-] _ Hbad Hacc ->|r fs [= <- <-] Hguard Hshape];
    [done|done|..].
  destruct Hshape as [text _ ->| Hstop -> |oi w2 _ _ _ ->|oi w2 og op og' _ _ _ _ _ Hog' Hr Hf _];
    try done.
  - destruct (for_each_process_spec E
      (sources_of E (called_as_generator argv0) rootdir files w) (Proc w false)) as [Hi _].
    destruct Hi as [Hr _|n f m w0 _ -> _ _]; [by destruct Hstop|done].
  - intros Hexit. split; [by destruct (Hguard Hgen)|]. rewrite Hr in Hexit. rewrite Hf.
    rewrite Hgen in Hog'.
    pose proof (generator_finish_cases E true files (final op)) as Hc.
    cbv zeta in Hc. rewrite <-Hog' in Hc.
    destruct Hc as [[[=] _]|[(_ & _ & _ & Heq)
                            |(_ & enable & w1 & _ & [(w' & Hopen & Heq)|[_ Heq]])]];
      rewrite Heq in Hexit |- *; try done.
    simpl. by eapply Hfopen.
Qed.

(** C5: called as generator with exactly three directories, a run that
    finds [<first directory>/netplan.stamp] ends with status 0 having only
    printed a notice: no source is read, nothing is cleaned up or written,
    no service is enabled and udevd is not reloaded.  Hence, after a
    generator run that ended with status 0, a second run on the environment
    it left does none of the generation work (given that a file [fopen] has
    created exists afterwards). *)
Theorem generator_runs_once argv0 rootdir f0 f1 f2 :
  called_as_generator argv0 = true →
  let files := Some [f0; f1; f2] in
  let parsed := inr (Options rootdir files) in
  (∀ w, g_access E (stamp_path E files) w = 0 → run_main E argv0 parsed w = skipped E files w)
  ∧ ((∀ p w0 w', fopen_w E p w0 = Some w' → g_access E p w' = 0) →
     ∀ w, result (run_main E argv0 parsed w) = Exit 0 →
          run_main E argv0 parsed (world (final (run_main E argv0 parsed w)))
          = skipped E files (world (final (run_main E argv0 parsed w)))).
Proof.
  intros Hgen files parsed. split.
  - intros w Hacc. by apply generator_stamp_present.
  - intros Hfopen w Hexit.
    destruct (generator_success_stamped argv0 rootdir files w Hfopen Hgen Hexit) as [Hbad Hacc].
    by apply generator_stamp_present.
Qed.

End Generator.

(** Splits a hypothesis [e ∈ tr] along the structure of [tr]. *)
Ltac split_in H :=
  repeat first
    [ apply elem_of_app in H as [H|H]
    | apply elem_of_cons in H as [H|H]
    | apply elem_of_nil in H; destruct H
    | apply list_elem_of_fmap in H as (? & H & _) ].

(** Splits [e ∈ tr] for the trace of a run that reached backend generation
    and discards the events [e] cannot be. *)
Ltac late_in H Hog_in Hop_in :=
  split_in H; try discriminate;
  try (by apply Hog_in in H as [?|?]);
  try (by apply Hop_in in H as (? & ? & ?)).

(** ** Parse errors *)

Section Failures.
Context {W ND RT RL : Type} (E : @Env W ND RT RL).
Implicit Types (e : @event ND RT RL).

Lemma generate_event_in rootdir s e :
  e ∈ emitted (generate_backend_files E rootdir s) → generation_event e.
Proof. intros He. by eapply (proj1 (Forall_forall _ _) (generate_emits E rootdir s)). Qed.

Lemma policy_event_in rootdir s e :
  e ∈ emitted (disable_nm_device_policy E rootdir s) → ∃ r p, e = StringFreeToFile r p.
Proof.
  destruct (policy_cases E rootdir s) as (_ & _ & [-> | ->]); simpl; intros He;
    split_in He; eauto.
Qed.

Lemma ingestion_event_in l (o : out ()) e :
  ingestion E l o → e ∈ emitted o → ingestion_event e.
Proof. intros Hi He. by eapply (proj1 (Forall_forall _ _) (ingestion_events E l o Hi)). Qed.

Lemma ingestion_done_inv l (o : out ()) :
  ingestion E l o → result o = Ret () → emitted o = parse_ok <$> l.
Proof. intros [_ ?|n f m w0 _ Hr _ _] Hret; [done|congruence]. Qed.

Lemma ingestion_failed_inv l (o : out ()) :
  ingestion E l o → result o ≠ Ret () →
  ∃ n f message w0,
    l !! n = Some f ∧ result o = Exit 1
    ∧ emitted o = (parse_ok <$> take n l) ++ [ParseYaml f (Some message); Stderr (message +:+ nl)]
    ∧ parse_yaml E f w0 = (Some message, world (final o)).
Proof. intros [? _|n f m w0 ????] Hret; [done|]. by exists n, f, m, w0. Qed.

(** C8: when [parse_yaml] fails on a source, [process_input_file] prints
    the parser's message and a newline on stderr and exits with status 1,
    leaving the environment as the failed parse left it.  In a run of
    [main], a failed parse is therefore followed by that one line and
    nothing else: every source before it was parsed successfully, no later
    source is read, [finish_parse], the cleanups and the writers are not
    called, and the exit status is 1. *)
Theorem parse_error_is_fatal :
  (∀ f s message w',
     parse_yaml E f (world s) = (Some message, w') →
     process_input_file E f s
     = Out (Exit 1) (Proc w' (any_networkd s))
           [ParseYaml f (Some message); Stderr (message +:+ nl)])
  ∧ (∀ argv0 parsed w f message,
       ParseYaml f (Some message) ∈ emitted (run_main E argv0 parsed w) →
       result (run_main E argv0 parsed w) = Exit 1
       ∧ ∃ before w0,
           emitted (run_main E argv0 parsed w)
           = (parse_ok <$> before) ++ [ParseYaml f (Some message); Stderr (message +:+ nl)]
           ∧ parse_yaml E f w0 = (Some message, world (final (run_main E argv0 parsed w)))).
Proof.
  split; [apply process_input_file_error|].
  intros argv0 parsed w f message.
  destruct (main_run E argv0 parsed w)
    as [m _ ->|r fs _ _ _ ->|r fs _ _ _ _ ->|r fs _ _ Hshape];
    try (intros He; split_in He; discriminate).
  pose proof (for_each_process_spec E
    (sources_of E (called_as_generator argv0) r fs w) (Proc w false)) as [Hi _].
  destruct Hshape as [text _ ->|Hstop ->|oi w2 -> Hr _ ->
                     |oi w2 og op og' -> Hr _ Hog Hop Hog' _ _ ->].
  - intros He; split_in He; discriminate.
  - destruct (ingestion_failed_inv _ _ Hi Hstop) as (n & g & m & w0 & _ & Hexit & Hev & Hw0).
    rewrite Hev. intros He. split_in He; try discriminate.
    injection He as -> ->. split; [done|]. by eexists _, w0.
  - rewrite (ingestion_done_inv _ _ Hi Hr). intros He. split_in He; discriminate.
  - rewrite (ingestion_done_inv _ _ Hi Hr). intros He. split_in He; try discriminate.
    + rewrite Hog in He. by apply generate_event_in in He as [?|?].
    + rewrite Hop in He. by apply policy_event_in in He as (? & ? & ?).
    + rewrite Hog' in He.
      by apply (proj1 (Forall_forall _ _) (generator_finish_late E _ _ _)) in He.
Qed.

End Failures.

(** ** Positions in a trace *)

(** An element of kind [K] of a list lies behind every initial segment that
    holds no element of that kind. *)
Lemma behind_prefix {A} (K : A → Prop) (l1 l2 before after : list A) (x : A) :
  l1 ++ l2 = before ++ x :: after →
  (∀ y, y ∈ l1 → ¬ K y) → K x →
  ∃ mid, before = l1 ++ mid.
Proof.
  revert before. induction l1 as [|y l1 IH]; intros before Heq Hno Hx; [by exists before|].
  destruct before as [|z before]; simpl in Heq.
  - injection Heq as -> _. destruct (Hno x); [left|done].
  - injection Heq as -> Heq. destruct (IH before Heq) as [mid ->]; [|done|by exists mid].
    intros y' Hy'. apply Hno. by right.
Qed.


(** ** Which sources are read, and in which order *)

Section Sources.
Context {W ND RT RL : Type} (E : @Env W ND RT RL).
Implicit Types (e : @event ND RT RL).

Local Abbreviation basename := (g_path_get_basename E).

Lemma sources_of_discovery gen rootdir files w :
  discovery_mode gen files → sources_of E gen rootdir files w = discovered E rootdir w.
Proof. intros [->| ->]; [done|]. by destruct files. Qed.

(** The sources a run reads are an initial segment of the list it set out
    to read, and the whole list if the run got as far as [finish_parse]. *)
Lemma run_ingested argv0 rootdir files w :
  ingested (emitted (run_main E argv0 (inr (Options rootdir files)) w))
    `prefix_of` sources_of E (called_as_generator argv0) rootdir files w
  ∧ (∀ ok, FinishParse ok ∈ emitted (run_main E argv0 (inr (Options rootdir files)) w) →
       ingested (emitted (run_main E argv0 (inr (Options rootdir files)) w))
       = sources_of E (called_as_generator argv0) rootdir files w).
Proof.
  pose proof (main_run E argv0 (inr (Options rootdir files)) w) as Hrun.
  set (o := run_main E argv0 (inr (Options rootdir files)) w) in *. clearbody o.
  assert (∀ (tr : list (@event ND RT RL)) text, tr = [Stderr text] →
            ingested tr `prefix_of` sources_of E (called_as_generator argv0) rootdir files w
            ∧ ∀ ok, FinishParse ok ∈ tr →
                    ingested tr = sources_of E (called_as_generator argv0) rootdir files w)
    as Hstderr.
  { intros tr text ->. split; [apply prefix_nil|]. intros ok H. split_in H. discriminate. }
  destruct Hrun as [m [=]|r fs _ _ _ ->|r fs _ _ _ _ ->|r fs [= <- <-] _ Hshape];
    [by eapply Hstderr..|].
  pose proof (for_each_process_spec E
    (sources_of E (called_as_generator argv0) rootdir files w) (Proc w false)) as [Hi _].
  destruct (ingestion_ingested E _ _ Hi) as [Hpre Hall].
  destruct Hshape as [text _ ->|Hstop ->|oi w2 -> Hr _ ->
                     |oi w2 og op og' -> Hr _ -> -> -> _ _ ->].
  - by eapply Hstderr.
  - split; [done|]. intros ok H. by apply (ingestion_event_in E _ _ _ Hi) in H.
  - cbn [emitted]. rewrite ingested_app, (Hall Hr). simpl. by rewrite app_nil_r.
  - rewrite !ingested_app, (Hall Hr).
    rewrite (ingested_late _ (generate_late E _ _)), (ingested_late _ (policy_late E _ _)),
      (ingested_late _ (generator_finish_late E _ _ _)).
    simpl. by rewrite app_nil_r.
Qed.

Lemma elem_of_discovered rootdir w p :
  p ∈ discovered E rootdir w →
  p ∈ tier_lib E rootdir w ++ tier_etc E rootdir w ++ tier_run E rootdir w.
Proof.
  unfold discovered. intros Hp.
  apply (proj1 (elem_of_config_sources E _ _)) in Hp. by apply winner_Some in Hp as [? _].
Qed.

(** C10: called as generator, [main] reads only what the three globs under
    the root directory match: the sources read are an initial segment of the
    discovered list (all of it once [finish_parse] is reached), a list that
    does not depend on the positional arguments.  The positional arguments
    are read as sources, in the order given, only when [main] is not called
    as generator. *)
Theorem generator_ignores_positional argv0 rootdir files w :
  (called_as_generator argv0 = true →
     ingested (emitted (run_main E argv0 (inr (Options rootdir files)) w))
       `prefix_of` discovered E rootdir w
     ∧ (∀ p, p ∈ ingested (emitted (run_main E argv0 (inr (Options rootdir files)) w)) →
             p ∈ tier_lib E rootdir w ++ tier_etc E rootdir w ++ tier_run E rootdir w)
     ∧ (∀ ok, FinishParse ok ∈ emitted (run_main E argv0 (inr (Options rootdir files)) w) →
              ingested (emitted (run_main E argv0 (inr (Options rootdir files)) w))
              = discovered E rootdir w))
  ∧ (called_as_generator argv0 = false → ∀ strv, files = Some strv →
     ingested (emitted (run_main E argv0 (inr (Options rootdir files)) w)) `prefix_of` strv
     ∧ (∀ ok, FinishParse ok ∈ emitted (run_main E argv0 (inr (Options rootdir files)) w) →
              ingested (emitted (run_main E argv0 (inr (Options rootdir files)) w)) = strv)).
Proof.
  destruct (run_ingested argv0 rootdir files w) as [Hpre Hall]. split.
  - intros Hgen. rewrite sources_of_discovery in Hpre, Hall by (by right).
    split; [done|split; [|done]].
    intros p Hp. apply elem_of_discovered. destruct Hpre as [k ->].
    apply elem_of_app. by left.
  - intros Hgen strv ->. by rewrite Hgen in Hpre, Hall.
Qed.

(** The winner among three tiers comes from the highest tier that has the
    basename. *)
Lemma winner_tiers lib etc run b p :
  winner E (lib ++ etc ++ run) b = Some p →
  (b ∈ basename <$> run → p ∈ run)
  ∧ (b ∉ basename <$> run → b ∈ basename <$> etc → p ∈ etc)
  ∧ (b ∉ basename <$> run → b ∉ basename <$> etc → p ∈ lib).
Proof.
  rewrite !winner_app.
  destruct (winner E run b) as [q|] eqn:Hrun.
  { intros [= ->]. apply winner_Some in Hrun as [Hin Hb].
    assert (b ∈ basename <$> run) by (rewrite <-Hb; by apply list_elem_of_fmap_2).
    done. }
  apply winner_None in Hrun.
  destruct (winner E etc b) as [q|] eqn:Hetc.
  { intros [= ->]. apply winner_Some in Hetc as [Hin Hb].
    assert (b ∈ basename <$> etc) by (rewrite <-Hb; by apply list_elem_of_fmap_2).
    done. }
  apply winner_None in Hetc.
  intros Hlib. by apply winner_Some in Hlib as [Hin Hb].
Qed.

(** C3: in default-discovery mode, in a run that has read all its sources,
    for every basename found in at least one of the three directories
    exactly one path with that basename has been read, and it comes from
    the runtime-override tier if the basename is found there, else from the
    site-admin tier if found there, else from the system-default tier. *)
Theorem discovery_precedence argv0 rootdir files w b ok :
  discovery_mode (called_as_generator argv0) files →
  FinishParse ok ∈ emitted (run_main E argv0 (inr (Options rootdir files)) w) →
  b ∈ basename <$> (tier_lib E rootdir w ++ tier_etc E rootdir w ++ tier_run E rootdir w) →
  ∃ p,
    filter (λ q, basename q = b)
           (ingested (emitted (run_main E argv0 (inr (Options rootdir files)) w))) = [p]
    ∧ basename p = b
    ∧ (b ∈ basename <$> tier_run E rootdir w → p ∈ tier_run E rootdir w)
    ∧ (b ∉ basename <$> tier_run E rootdir w → b ∈ basename <$> tier_etc E rootdir w →
       p ∈ tier_etc E rootdir w)
    ∧ (b ∉ basename <$> tier_run E rootdir w → b ∉ basename <$> tier_etc E rootdir w →
       p ∈ tier_lib E rootdir w).
Proof.
  intros Hmode Hfinish Hb.
  destruct (run_ingested argv0 rootdir files w) as [_ Hall].
  rewrite (Hall _ Hfinish), sources_of_discovery by done.
  destruct (winner_is_Some E _ _ Hb) as [p Hp]. exists p. split; [|split].
  - by apply config_sources_one_per_basename.
  - by apply winner_Some in Hp as [_ ?].
  - by apply winner_tiers.
Qed.

(** C4: in default-discovery mode the sources are read in strictly
    ascending [strcmp] order of their basenames, whatever directory each
    comes from; a run that has read all its sources has read the winners in
    the order of the sorted keys of [configs]. *)
Theorem ingestion_order argv0 rootdir files w :
  discovery_mode (called_as_generator argv0) files →
  StronglySorted strcmp_lt
    (basename <$> ingested (emitted (run_main E argv0 (inr (Options rootdir files)) w)))
  ∧ (∀ ok, FinishParse ok ∈ emitted (run_main E argv0 (inr (Options rootdir files)) w) →
       basename <$> ingested (emitted (run_main E argv0 (inr (Options rootdir files)) w))
       = g_list_sort (g_hash_table_get_keys (insert_configs E
           (tier_lib E rootdir w ++ tier_etc E rootdir w ++ tier_run E rootdir w)))).
Proof.
  intros Hmode.
  destruct (run_ingested argv0 rootdir files w) as [Hpre Hall].
  rewrite sources_of_discovery in Hpre, Hall by done. split.
  - destruct Hpre as [k Hk].
    pose proof (config_sources_sorted E
      (tier_lib E rootdir w ++ tier_etc E rootdir w ++ tier_run E rootdir w)) as Hsorted.
    fold (discovered E rootdir w) in Hsorted. rewrite Hk, fmap_app in Hsorted.
    by apply StronglySorted_app_1_l in Hsorted.
  - intros ok Hfinish. rewrite (Hall _ Hfinish). apply basename_config_sources.
Qed.

End Sources.

(** ** Dispatch: the global writers and the udevd reload *)

Section Dispatch.
Context {W ND RT RL : Type} (E : @Env W ND RT RL).
Implicit Types (e : @event ND RT RL).

Lemma generator_finish_event_in gen files s e :
  e ∈ emitted (generator_finish E gen files (stamp_of E gen files) s) →
  (∃ d ok, e = EnableNetworkd d ok) ∨ (∃ p ok, e = Fopen p ok).
Proof.
  intros He. apply generator_finish_events in He as [(ok & -> & _)|(ok & -> & _)]; eauto.
Qed.

Lemma generator_finish_keeps_flag gen files s :
  any_networkd (final (generator_finish E gen files (stamp_of E gen files) s))
  = any_networkd s.
Proof. apply generator_finish_flag. Qed.

Lemma existsb_none {A} (f : A → bool) (l : list A) :
  (∀ x, x ∈ l → f x = false) → existsb f l = false.
Proof.
  induction l as [|x l IH]; intros H; [done|]. simpl.
  rewrite (H x) by left. apply IH. intros y Hy. apply H. by right.
Qed.



(** In every run [any_networkd] ends as the disjunction of the results the
    networkd writers reported. *)
Lemma run_accumulates argv0 parsed w :
  any_networkd (final (run_main E argv0 parsed w))
  = existsb managed_output (emitted (run_main E argv0 parsed w)).
Proof.
  pose proof (main_run E argv0 parsed w) as Hrun.
  set (o := run_main E argv0 parsed w) in *. clearbody o.
  destruct Hrun as [m _ ->|r fs _ _ _ ->|r fs _ _ _ _ ->|r fs _ _ Hshape]; [done..|].
  pose proof (for_each_process_spec E
    (sources_of E (called_as_generator argv0) r fs w) (Proc w false)) as [Hi Hany].
  assert (existsb managed_output (emitted (for_each
            (sources_of E (called_as_generator argv0) r fs w)
            (process_input_file E) (Proc w false))) = false) as Hnone.
  { apply existsb_none. intros e He. apply (ingestion_event_in E _ _ _ Hi) in He. by destruct e. }
  destruct Hshape as [text _ ->|Hstop ->|oi w2 -> Hr _ ->
                     |oi w2 og op og' -> Hr _ -> -> -> _ -> ->]; [done|by rewrite Hnone| |].
  - simpl. by rewrite existsb_app, Hnone.
  - rewrite generator_finish_keeps_flag.
    destruct (policy_cases E r (final (generate_backend_files E r (cleaned E r w2))))
      as (_ & -> & _).
    rewrite (generate_accumulates E r (cleaned E r w2)).
    rewrite !existsb_app, Hnone.
    rewrite (existsb_none managed_output (emitted (disable_nm_device_policy E r _))).
    2:{ intros e He. by apply policy_event_in in He as (? & ? & ->). }
    rewrite (existsb_none managed_output (emitted (generator_finish E _ _ _ _))).
    2:{ intros e He. by apply generator_finish_event_in in He as [(? & ? & ->)|(? & ? & ->)]. }
    simpl. by rewrite !orb_false_r.
Qed.



End Dispatch.


(** ** The properties on the sample environment *)

Section SampleRuns.
Import Sample.

Example strcmp_numeric_prefix : strcmp "05-b.yaml" "10-a.yaml" < 0.
Proof. reflexivity. Qed.

Example strcmp_proper_prefix : strcmp "10-a" "10-a.yaml" < 0.
Proof. reflexivity. Qed.

Example called_as_generator_yes : called_as_generator generator = true.
Proof. reflexivity. Qed.

Example called_as_generator_no : called_as_generator "/usr/sbin/netplan-generate" = false.
Proof. reflexivity. Qed.

Example sample_discovered :
  discovered env None tiers = ["//run/netplan/05-b.yaml"; "//etc/netplan/10-a.yaml"].
Proof. vm_compute. reflexivity. Qed.

Lemma sample_fopen_creates p w0 w' :
  fopen_w env p w0 = Some w' → g_access env p w' = 0.
Proof.
  simpl. unfold s_fopen_w. destruct (read_only w0); [done|]. intros [= <-]. simpl.
  rewrite bool_decide_true; [done|]. left. by left.
Qed.

Lemma generator_wrong_arity_witness :
  run_main env generator (inr (Options None (Some ["/run/gen"; "/run/gen.early"]))) tiers
  = Out (Exit 1) (Proc tiers false)
        [Stderr (generator +:+ " can not be called directly, use 'netplan generate'.")].
Proof.
  apply (generator_wrong_arity env generator None (Some ["/run/gen"; "/run/gen.early"]) tiers).
  - reflexivity.
  - intros strv [= <-]. simpl. lia.
Defined.

Lemma generator_runs_once_witness :
  let parsed := inr (Options None three_dirs) in
  let o1 := run_main env generator parsed tiers in
  result o1 = Exit 0
  ∧ run_main env generator parsed (world (final o1)) = skipped env three_dirs (world (final o1)).
Proof.
  split; [vm_compute; reflexivity|].
  apply (proj2 (generator_runs_once env generator None
                  "/run/gen" "/run/gen.early" "/run/gen.late" eq_refl)).
  - apply sample_fopen_creates.
  - vm_compute. reflexivity.
Defined.

Lemma parse_error_is_fatal_witness :
  let o := run_main env "generate" (inr (Options None None)) broken in
  result o = Exit 1
  ∧ ∃ before w0,
      emitted o = (parse_ok <$> before)
                  ++ [ParseYaml "//etc/netplan/02-bad.yaml"
                                (Some "mapping values are not allowed here");
                      Stderr ("mapping values are not allowed here" +:+ nl)]
      ∧ parse_yaml env "//etc/netplan/02-bad.yaml" w0
        = (Some "mapping values are not allowed here", world (final o)).
Proof.
  apply (proj2 (parse_error_is_fatal env) "generate" (inr (Options None None)) broken).
  apply list_elem_of_lookup_2 with (i := 1%nat). vm_compute. reflexivity.
Defined.

Lemma generator_ignores_positional_witness :
  let o := run_main env generator (inr (Options None three_dirs)) tiers in
  ingested (emitted o) = ["//run/netplan/05-b.yaml"; "//etc/netplan/10-a.yaml"]
  ∧ ingested (emitted o) = discovered env None tiers.
Proof.
  split; [vm_compute; reflexivity|].
  apply (proj2 (proj2 (proj1 (generator_ignores_positional env generator None three_dirs tiers)
                         eq_refl)) true).
  apply list_elem_of_lookup_2 with (i := 2%nat). vm_compute. reflexivity.
Defined.

Lemma discovery_precedence_witness :
  let o := run_main env "generate" (inr (Options None None)) tiers in
  ∃ p,
    filter (λ q, g_path_get_basename env q = "10-a.yaml") (ingested (emitted o)) = [p]
    ∧ g_path_get_basename env p = "10-a.yaml"
    ∧ ("10-a.yaml" ∈ g_path_get_basename env <$> tier_run env None tiers →
       p ∈ tier_run env None tiers)
    ∧ ("10-a.yaml" ∉ g_path_get_basename env <$> tier_run env None tiers →
       "10-a.yaml" ∈ g_path_get_basename env <$> tier_etc env None tiers →
       p ∈ tier_etc env None tiers)
    ∧ ("10-a.yaml" ∉ g_path_get_basename env <$> tier_run env None tiers →
       "10-a.yaml" ∉ g_path_get_basename env <$> tier_etc env None tiers →
       p ∈ tier_lib env None tiers).
Proof.
  apply (discovery_precedence env "generate" None None tiers "10-a.yaml" true).
  - by left.
  - apply list_elem_of_lookup_2 with (i := 2%nat). vm_compute. reflexivity.
  - apply list_elem_of_lookup_2 with (i := 0%nat). vm_compute. reflexivity.
Defined.

Lemma ingestion_order_witness :
  let o := run_main env "generate" (inr (Options None None)) tiers in
  StronglySorted strcmp_lt (g_path_get_basename env <$> ingested (emitted o))
  ∧ g_path_get_basename env <$> ingested (emitted o) = ["05-b.yaml"; "10-a.yaml"].
Proof.
  split; [|vm_compute; reflexivity].
  apply (ingestion_order env "generate" None None tiers). by left.
Defined.





End SampleRuns.

(** * Further properties of [main] *)

(** ** Discovery: glob errors and empty directories *)

Section Globbing.
Context {W ND RT RL : Type} (E : @Env W ND RT RL).
Implicit Types (e : @event ND RT RL).

Lemma glob_checked_fail pattern gl s :
  glob_fails E pattern (world s) →
  glob_checked E pattern gl s
  = Out (Exit 1) s
        [Stderr ("failed to glob for " +:+ pattern +:+ ": " +:+ strerror_errno E (world s) +:+ nl)].
Proof.
  intros Hf. unfold glob_checked. rewrite bind_out. simpl.
  by rewrite bool_decide_true by done.
Qed.

Lemma glob_checked_pass pattern gl s :
  ¬ glob_fails E pattern (world s) →
  glob_checked E pattern gl s = Out (Ret (gl ++ (glob E pattern (world s)).2)) s [].
Proof.
  intros Hf. unfold glob_checked. rewrite bind_out. simpl.
  by rewrite bool_decide_false by done.
Qed.

Lemma read_input_files_discovery gen rootdir files s :
  discovery_mode gen files →
  read_input_files E gen rootdir files s =
    (gl ← glob_checked E (glob_pattern rootdir "/lib/netplan/*.yaml") [];
     gl ← glob_checked E (glob_pattern rootdir "/etc/netplan/*.yaml") gl;
     gl ← glob_checked E (glob_pattern rootdir "/run/netplan/*.yaml") gl;
     for_each (g_list_sort (g_hash_table_get_keys (insert_configs E gl)))
       (λ key, match insert_configs E gl !! key with
               | Some path => process_input_file E path
               | None => mret ()
               end)) s.
Proof. intros [->| ->]; [done|]. by destruct files. Qed.

(** What reading the sources does in discovery mode, by the first pattern
    whose [glob] fails. *)
Lemma read_input_files_globs gen rootdir files w :
  discovery_mode gen files →
  let lib := glob_pattern rootdir "/lib/netplan/*.yaml" in
  let etc := glob_pattern rootdir "/etc/netplan/*.yaml" in
  let run := glob_pattern rootdir "/run/netplan/*.yaml" in
  (glob_fails E lib w →
   read_input_files E gen rootdir files (Proc w false) = glob_failure E lib w)
  ∧ (¬ glob_fails E lib w → glob_fails E etc w →
     read_input_files E gen rootdir files (Proc w false) = glob_failure E etc w)
  ∧ (¬ glob_fails E lib w → ¬ glob_fails E etc w → glob_fails E run w →
     read_input_files E gen rootdir files (Proc w false) = glob_failure E run w)
  ∧ (¬ glob_fails E lib w → ¬ glob_fails E etc w → ¬ glob_fails E run w →
     read_input_files E gen rootdir files (Proc w false)
     = for_each (discovered E rootdir w) (process_input_file E) (Proc w false)).
Proof.
  intros Hmode lib etc run. rewrite (read_input_files_discovery _ _ _ _ Hmode).
  fold lib etc run. split; [|split; [|split]].
  - intros H1. rewrite bind_out, glob_checked_fail by done. done.
  - intros H1 H2. rewrite bind_out, glob_checked_pass by done. simpl.
    rewrite bind_out, glob_checked_fail by done. done.
  - intros H1 H2 H3. rewrite bind_out, glob_checked_pass by done. simpl.
    rewrite bind_out, glob_checked_pass by done. simpl.
    rewrite bind_out, glob_checked_fail by done. done.
  - intros H1 H2 H3. rewrite bind_out, glob_checked_pass by done. simpl.
    rewrite bind_out, glob_checked_pass by done. simpl.
    rewrite bind_out, glob_checked_pass by done. simpl.
    rewrite for_each_omap, out_eta.
    unfold discovered, config_sources, tier_lib, tier_etc, tier_run.
    fold lib etc run. by rewrite <-app_assoc.
Qed.

(** Past the generator guard, a run is what reading the sources makes of
    it: the same run when reading ends the process, and otherwise one that
    goes on with [finish_parse] in the environment reading left. *)
Lemma run_after_reading argv0 rootdir files w :
  guard_passed E argv0 files w →
  let r := read_input_files E (called_as_generator argv0) rootdir files (Proc w false) in
  (result r ≠ Ret () → run_main E argv0 (inr (Options rootdir files)) w = r)
  ∧ (result r = Ret () →
     ∃ rest, emitted (run_main E argv0 (inr (Options rootdir files)) w)
             = emitted r ++ FinishParse (finish_parse E (world (final r))).1 :: rest).
Proof.
  intros Hguard r. unfold run_main, main.
  destruct (generator_guard_cases E argv0 files (Proc w false))
    as [(Hgen & Hbad & _)|[(Hgen & Hbad & Hacc & _)|[_ Hg]]].
  { destruct (Hguard Hgen). congruence. }
  { destruct (Hguard Hgen). done. }
  rewrite (bind_pure _ _ _ _ Hg). rewrite bind_out. fold r. split.
  - intros Hr. destruct (result r) as [[]| |] eqn:Hres; [done|..];
      rewrite <-Hres; apply out_eta.
  - intros ->. cbn [emitted]. rewrite bind_out. cbn [call result final emitted].
    by eexists.
Qed.

(** X1: in default-discovery mode, past the generator guard, the three
    patterns are globbed in the order lib, etc, run, and the first [glob]
    that returns a code other than 0 and [GLOB_NOMATCH] ends the run with
    status 1 after one line on stderr naming that pattern: no source is
    read, nothing is cleaned up or written, the environment is unchanged. *)
Theorem glob_failure_is_fatal argv0 rootdir files w :
  guard_passed E argv0 files w →
  discovery_mode (called_as_generator argv0) files →
  let lib := glob_pattern rootdir "/lib/netplan/*.yaml" in
  let etc := glob_pattern rootdir "/etc/netplan/*.yaml" in
  let run := glob_pattern rootdir "/run/netplan/*.yaml" in
  (glob_fails E lib w →
   run_main E argv0 (inr (Options rootdir files)) w = glob_failure E lib w)
  ∧ (¬ glob_fails E lib w → glob_fails E etc w →
     run_main E argv0 (inr (Options rootdir files)) w = glob_failure E etc w)
  ∧ (¬ glob_fails E lib w → ¬ glob_fails E etc w → glob_fails E run w →
     run_main E argv0 (inr (Options rootdir files)) w = glob_failure E run w).
Proof.
  intros Hguard Hmode lib etc run. subst lib etc run.
  destruct (read_input_files_globs (called_as_generator argv0) rootdir files w Hmode)
    as (H1 & H2 & H3 & _).
  destruct (run_after_reading argv0 rootdir files w Hguard) as [Hstop _].
  split; [|split].
  - intros F1. rewrite <-(H1 F1). apply Hstop. by rewrite (H1 F1).
  - intros F1 F2. rewrite <-(H2 F1 F2). apply Hstop. by rewrite (H2 F1 F2).
  - intros F1 F2 F3. rewrite <-(H3 F1 F2 F3). apply Hstop. by rewrite (H3 F1 F2 F3).
Qed.

Lemma config_sources_nil : config_sources E [] = [].
Proof.
  unfold config_sources, insert_configs, g_hash_table_get_keys, g_list_sort. simpl.
  by rewrite map_to_list_empty.
Qed.

(** X2: in default-discovery mode, past the generator guard, when no [glob]
    fails and none matches a file ([GLOB_NOMATCH] is not an error),
    [parse_yaml] is never called and the first call of the run is
    [finish_parse], made in the unchanged environment. *)
Theorem empty_discovery argv0 rootdir files w :
  guard_passed E argv0 files w →
  discovery_mode (called_as_generator argv0) files →
  ¬ glob_fails E (glob_pattern rootdir "/lib/netplan/*.yaml") w →
  ¬ glob_fails E (glob_pattern rootdir "/etc/netplan/*.yaml") w →
  ¬ glob_fails E (glob_pattern rootdir "/run/netplan/*.yaml") w →
  tier_lib E rootdir w ++ tier_etc E rootdir w ++ tier_run E rootdir w = [] →
  ingested (emitted (run_main E argv0 (inr (Options rootdir files)) w)) = []
  ∧ ∃ rest, emitted (run_main E argv0 (inr (Options rootdir files)) w)
            = FinishParse (finish_parse E w).1 :: rest.
Proof.
  intros Hguard Hmode F1 F2 F3 Hnone.
  destruct (read_input_files_globs (called_as_generator argv0) rootdir files w Hmode)
    as (_ & _ & _ & Hread). specialize (Hread F1 F2 F3).
  unfold discovered in Hread. rewrite Hnone, config_sources_nil in Hread.
  destruct (run_after_reading argv0 rootdir files w Hguard) as [_ Hgo].
  rewrite Hread in Hgo. destruct (Hgo eq_refl) as [rest Hrest]. simpl in Hrest.
  split; [|by exists rest].
  destruct (run_ingested E argv0 rootdir files w) as [Hpre _].
  rewrite sources_of_discovery in Hpre by done.
  unfold discovered in Hpre. rewrite Hnone, config_sources_nil in Hpre.
  by apply prefix_nil_inv in Hpre.
Qed.

End Globbing.

(** ** How a run ends *)

Section Outcomes.
Context {W ND RT RL : Type} (E : @Env W ND RT RL).
Implicit Types (e : @event ND RT RL).

Lemma ingestion_exit_1 l s :
  result (for_each l (process_input_file E) s) ≠ Ret () →
  result (for_each l (process_input_file E) s) = Exit 1
  ∧ ∃ before f message,
      emitted (for_each l (process_input_file E) s)
      = (parse_ok <$> before) ++ [ParseYaml f (Some message); Stderr (message +:+ nl)].
Proof.
  intros Hstop. destruct (for_each_process_spec E l s) as [Hi _].
  destruct (ingestion_failed_inv E _ _ Hi Hstop) as (n & f & m & w0 & _ & Hexit & Hev & _).
  split; [done|]. by eexists _, f, m.
Qed.

Lemma ingestion_ok_events l s :
  result (for_each l (process_input_file E) s) = Ret () →
  emitted (for_each l (process_input_file E) s) = parse_ok <$> l.
Proof.
  intros Hr. destruct (for_each_process_spec E l s) as [Hi _].
  by apply (ingestion_done_inv E _ _ Hi).
Qed.

(** X3: a run aborts exactly when one of the three assertions fails: the
    one on [finish_parse], the one [enable_networkd] is said to make, or the
    one on the stamp.  A failed [finish_parse] is the last call of its run:
    it comes after the successful parses of all sources, and neither cleanup
    nor any writer is called. *)
Theorem abort_only_on_failed_assertion argv0 parsed w :
  (result (run_main E argv0 parsed w) = Abort
   ↔ FinishParse false ∈ emitted (run_main E argv0 parsed w)
     ∨ (∃ d, EnableNetworkd d false ∈ emitted (run_main E argv0 parsed w))
     ∨ ∃ p, Fopen p false ∈ emitted (run_main E argv0 parsed w))
  ∧ (FinishParse false ∈ emitted (run_main E argv0 parsed w) →
     ∃ sources, emitted (run_main E argv0 parsed w)
                = (parse_ok <$> sources) ++ [FinishParse false]).
Proof.
  pose proof (main_run E argv0 parsed w) as Hrun.
  set (o := run_main E argv0 parsed w) in *. clearbody o.
  assert (∀ (o' : @out W ND RT RL ()) n text, o' = Out (Exit n) (Proc w false) [Stderr text] →
    (result o' = Abort ↔ FinishParse false ∈ emitted o'
                         ∨ (∃ d, EnableNetworkd d false ∈ emitted o')
                         ∨ ∃ p, Fopen p false ∈ emitted o')
    ∧ (FinishParse false ∈ emitted o' →
       ∃ sources, emitted o' = (parse_ok <$> sources) ++ [FinishParse false])) as Hstderr.
  { intros o' n text ->. simpl. split; [split; [done|]|].
    - intros [H|[[d H]|[p H]]]; split_in H; discriminate.
    - intros H. split_in H. discriminate. }
  destruct Hrun as [m _ Ho|r fs _ _ _ Ho|r fs _ _ _ _ Ho|r fs _ _ Hshape];
    [by eapply Hstderr..|].
  destruct Hshape as [text _ Ho|Hstop ->|oi w2 -> Hr _ ->
                     |oi w2 og op og' -> Hr _ Hog Hop Hog' Hres _ Hev].
  - by eapply Hstderr.
  - destruct (ingestion_exit_1 _ _ Hstop) as [-> (before & f & m & ->)].
    split; [split; [done|]|].
    + intros [H|[[d H]|[p H]]]; split_in H; discriminate.
    + intros H. split_in H; discriminate.
  - rewrite (ingestion_ok_events _ _ Hr). simpl. split; [split|].
    + intros _. left. apply elem_of_app. right. by left.
    + done.
    + intros _. by eexists.
  - rewrite Hres, Hev, (ingestion_ok_events _ _ Hr).
    assert (∀ e, e ∈ emitted og → generation_event e) as Hog_in.
    { intros e He. rewrite Hog in He. by apply generate_event_in in He. }
    assert (∀ e, e ∈ emitted op → ∃ r p, e = StringFreeToFile r p) as Hop_in.
    { intros e He. rewrite Hop in He. by apply policy_event_in in He. }
    assert (FinishParse false ∉ emitted og') as Hfp.
    { rewrite Hog'. intros H.
      by apply generator_finish_event_in in H as [(? & ? & ?)|(? & ? & ?)]. }
    pose proof (generator_finish_cases E (called_as_generator argv0) fs (final op)) as Hcases.
    cbv zeta in Hcases. rewrite <-Hog' in Hcases.
    split; [split|].
    + intros Habort. right.
      destruct Hcases as [[_ Heq]|[(_ & _ & _ & Heq)
                         |(_ & enable & w1 & _ & [(w' & _ & Heq)|[_ Heq]])]];
        rewrite Heq in Habort; try discriminate.
      * left. exists (files_0 fs). rewrite Heq. simpl.
        rewrite !elem_of_app, !elem_of_cons, !elem_of_app. repeat first [by left|right].
      * right. exists (stamp_path E fs). rewrite Heq. simpl.
        rewrite !elem_of_app, !elem_of_cons, !elem_of_app. repeat first [by left|right].
    + intros [H|[[d H]|[p H]]].
      * late_in H Hog_in Hop_in. by destruct Hfp.
      * late_in H Hog_in Hop_in.
        destruct Hcases as [[_ Heq]|[(_ & _ & _ & Heq)
                           |(_ & enable & w1 & Hen & [(w' & _ & Heq)|[_ Heq]])]];
          rewrite Heq in H |- *; simpl in *; [by apply elem_of_nil in H|done| |done].
        destruct Hen as [(_ & _ & ->)|(_ & _ & ->)]; split_in H; discriminate.
      * late_in H Hog_in Hop_in.
        destruct Hcases as [[_ Heq]|[(_ & _ & _ & Heq)
                           |(_ & enable & w1 & Hen & [(w' & _ & Heq)|[_ Heq]])]];
          rewrite Heq in H |- *; simpl in *; [by apply elem_of_nil in H|done| |done].
        destruct Hen as [(_ & _ & ->)|(_ & _ & ->)]; split_in H; discriminate.
    + intros H. late_in H Hog_in Hop_in. by destruct Hfp.
Qed.

(** X4: a run ends with status 0, with status 1, or aborts.  A run that ends
    with status 1 ends on a line on stderr and has called nothing but
    [parse_yaml]: no [finish_parse], no cleanup, no writer, no reload, no
    stamp; [any_networkd] is unset. *)
Theorem exit_status argv0 parsed w :
  (result (run_main E argv0 parsed w) = Exit 0
   ∨ result (run_main E argv0 parsed w) = Exit 1
   ∨ result (run_main E argv0 parsed w) = Abort)
  ∧ (result (run_main E argv0 parsed w) = Exit 1 →
     any_networkd (final (run_main E argv0 parsed w)) = false
     ∧ (∀ e, e ∈ emitted (run_main E argv0 parsed w) → ingestion_event e)
     ∧ ∃ before text, emitted (run_main E argv0 parsed w) = before ++ [Stderr text]).
Proof.
  pose proof (main_run E argv0 parsed w) as Hrun.
  set (o := run_main E argv0 parsed w) in *. clearbody o.
  assert (∀ (o' : @out W ND RT RL ()) n text, n = 0 ∨ n = 1 →
    o' = Out (Exit n) (Proc w false) [Stderr text] →
    (result o' = Exit 0 ∨ result o' = Exit 1 ∨ result o' = Abort)
    ∧ (result o' = Exit 1 →
       any_networkd (final o') = false ∧ (∀ e, e ∈ emitted o' → ingestion_event e)
       ∧ ∃ before text, emitted o' = before ++ [Stderr text])) as Hstderr.
  { intros o' n text Hn ->. simpl. split; [destruct Hn as [->| ->]; auto|].
    intros _. split; [done|split].
    - intros e He. split_in He. by subst.
    - by exists [], text. }
  destruct Hrun as [m _ Ho|r fs _ _ _ Ho|r fs _ _ _ _ Ho|r fs _ _ Hshape];
    [eapply Hstderr; [|done]; auto..|].
  destruct Hshape as [text _ Ho|Hstop ->|oi w2 -> Hr _ ->
                     |oi w2 og op og' -> Hr _ Hog Hop Hog' Hres _ Hev].
  - eapply Hstderr; [|done]; auto.
  - destruct (for_each_process_spec E
      (sources_of E (called_as_generator argv0) r fs w) (Proc w false)) as [Hi Hany].
    destruct (ingestion_exit_1 _ _ Hstop) as [Hexit (before & f & m & Hev)].
    split; [auto|]. intros _. split; [done|split].
    + intros e He. exact (ingestion_event_in E _ _ e Hi He).
    + rewrite Hev. exists ((parse_ok <$> before) ++ [ParseYaml f (Some m)]), (m +:+ nl).
      by rewrite <-app_assoc.
  - simpl. split; [auto|done].
  - rewrite Hres.
    pose proof (generator_finish_cases E (called_as_generator argv0) fs (final op)) as Hcases.
    cbv zeta in Hcases. rewrite <-Hog' in Hcases.
    destruct Hcases as [[_ Heq]|[(_ & _ & _ & Heq)
                       |(_ & enable & w1 & _ & [(w' & _ & Heq)|[_ Heq]])]]; rewrite Heq; simpl;
      (split; [auto|done]).
Qed.

(** X5: in a run of [main] that is not called as generator,
    [enable_networkd] is never called and no stamp is opened; and once
    [g_option_context_parse] has returned with the options stored, such a
    run ends with status 0 exactly when [finish_parse] was called and
    succeeded: after that it cannot fail any more. *)
Theorem direct_run_outcome argv0 parsed w :
  called_as_generator argv0 = false →
  (∀ d ok, EnableNetworkd d ok ∉ emitted (run_main E argv0 parsed w))
  ∧ (∀ p ok, Fopen p ok ∉ emitted (run_main E argv0 parsed w))
  ∧ (∀ rootdir files, parsed = inr (Options rootdir files) →
       result (run_main E argv0 parsed w) = Exit 0
       ↔ FinishParse true ∈ emitted (run_main E argv0 parsed w)).
Proof.
  intros Hgen.
  pose proof (main_run E argv0 parsed w) as Hrun.
  set (o := run_main E argv0 parsed w) in *. clearbody o.
  assert (∀ (o' : @out W ND RT RL ()) text, o' = Out (Exit 1) (Proc w false) [Stderr text] →
    (∀ d ok, EnableNetworkd d ok ∉ emitted o') ∧ (∀ p ok, Fopen p ok ∉ emitted o')
    ∧ (∀ rootdir files, parsed = inr (Options rootdir files) →
         result o' = Exit 0 ↔ FinishParse true ∈ emitted o')) as Hstderr.
  { intros o' text ->. simpl. split; [|split; [|intros _ _ _; split]].
    - intros d ok H. split_in H. discriminate.
    - intros p ok H. split_in H. discriminate.
    - done.
    - intros H. split_in H. discriminate. }
  destruct Hrun as [m _ Ho|r fs _ Hgen' _ Ho|r fs _ Hgen' _ _ Ho|r fs _ _ Hshape];
    [by eapply Hstderr|congruence|congruence|].
  destruct Hshape as [text _ Ho|Hstop ->|oi w2 -> Hr _ ->
                     |oi w2 og op og' -> Hr _ Hog Hop Hog' Hres _ Hev].
  - by eapply Hstderr.
  - destruct (ingestion_exit_1 _ _ Hstop) as [-> (before & f & m & ->)].
    split; [|split; [|intros _ _ _; split]].
    + intros d ok H. split_in H; discriminate.
    + intros p ok H. split_in H; discriminate.
    + done.
    + intros H. split_in H; discriminate.
  - rewrite (ingestion_ok_events _ _ Hr). simpl. split; [|split; [|intros _ _ _; split]].
    + intros d ok H. split_in H; discriminate.
    + intros p ok H. split_in H; discriminate.
    + done.
    + intros H. split_in H; discriminate.
  - rewrite Hgen in Hog'. rewrite Hog' in Hres, Hev. simpl in Hres, Hev.
    rewrite Hres, Hev, (ingestion_ok_events _ _ Hr), app_nil_r.
    assert (∀ e, e ∈ emitted og → generation_event e) as Hog_in.
    { intros e He. rewrite Hog in He. by apply generate_event_in in He. }
    assert (∀ e, e ∈ emitted op → ∃ r p, e = StringFreeToFile r p) as Hop_in.
    { intros e He. rewrite Hop in He. by apply policy_event_in in He. }
    split; [|split; [|intros _ _ _; split]].
    + intros d ok H. late_in H Hog_in Hop_in.
    + intros p ok H. late_in H Hog_in Hop_in.
    + intros _. apply elem_of_app. right. by left.
    + done.
Qed.

(** X6: a stamp is opened only by a run called as generator that got past
    [finish_parse] and the cleanups; the file opened is
    [<first directory>/netplan.stamp], opening it is the last call of the
    run, and if it succeeds the run ends with status 0.  So a run that
    fails earlier leaves no stamp behind. *)
Theorem stamp_only_after_generation argv0 rootdir files w p ok :
  Fopen p ok ∈ emitted (run_main E argv0 (inr (Options rootdir files)) w) →
  called_as_generator argv0 = true
  ∧ p = stamp_path E files
  ∧ FinishParse true ∈ emitted (run_main E argv0 (inr (Options rootdir files)) w)
  ∧ CleanupNmConf rootdir ∈ emitted (run_main E argv0 (inr (Options rootdir files)) w)
  ∧ (∃ before, emitted (run_main E argv0 (inr (Options rootdir files)) w)
               = before ++ [Fopen p ok])
  ∧ (ok = true → result (run_main E argv0 (inr (Options rootdir files)) w) = Exit 0).
Proof.
  pose proof (main_run E argv0 (inr (Options rootdir files)) w) as Hrun.
  set (o := run_main E argv0 (inr (Options rootdir files)) w) in *. clearbody o.
  destruct Hrun as [m [=]|r fs _ _ _ ->|r fs _ _ _ _ ->|r fs [= <- <-] _ Hshape];
    try (intros H; split_in H; discriminate).
  destruct Hshape as [text _ ->|Hstop ->|oi w2 -> Hr _ ->
                     |oi w2 og op og' -> Hr _ Hog Hop Hog' Hres _ Hev].
  - intros H; split_in H; discriminate.
  - destruct (ingestion_exit_1 _ _ Hstop) as [_ (before & f & m & ->)].
    intros H; split_in H; discriminate.
  - rewrite (ingestion_ok_events _ _ Hr). intros H. split_in H; discriminate.
  - rewrite Hres, Hev, (ingestion_ok_events _ _ Hr).
    assert (∀ e, e ∈ emitted og → generation_event e) as Hog_in.
    { intros e He. rewrite Hog in He. by apply generate_event_in in He. }
    assert (∀ e, e ∈ emitted op → ∃ r p, e = StringFreeToFile r p) as Hop_in.
    { intros e He. rewrite Hop in He. by apply policy_event_in in He. }
    pose proof (generator_finish_cases E (called_as_generator argv0) files (final op)) as Hcases.
    cbv zeta in Hcases. rewrite <-Hog' in Hcases.
    intros H. late_in H Hog_in Hop_in.
    assert (∀ tr : list (@event ND RT RL),
              FinishParse true ∈ (parse_ok <$> sources_of E (called_as_generator argv0) rootdir files w)
                                 ++ [FinishParse true; CleanupNetworkdConf rootdir;
                                     CleanupNmConf rootdir] ++ tr
              ∧ CleanupNmConf rootdir ∈ (parse_ok <$> sources_of E (called_as_generator argv0) rootdir files w)
                                 ++ [FinishParse true; CleanupNetworkdConf rootdir;
                                     CleanupNmConf rootdir] ++ tr) as Hfront.
    { intros tr. rewrite !elem_of_app, !elem_of_cons. split; right; left; auto. }
    destruct Hcases as [[_ Heq]|[(_ & _ & _ & Heq)
                       |(Hgen & enable & w1 & Hen & [(w' & _ & Heq)|[_ Heq]])]];
      rewrite Heq in H |- *; simpl in H |- *;
      [by apply elem_of_nil in H|split_in H; discriminate|..];
      (apply elem_of_app in H as [H|H];
         [destruct Hen as [(_ & _ & ->)|(_ & _ & ->)]; split_in H; discriminate|]);
      apply list_elem_of_singleton in H; injection H as -> ->;
      (split; [done|split; [done|split; [apply Hfront|split; [apply Hfront|split]]]]);
      try done.
    + match goal with
      | |- ∃ _, ?A ++ ?a :: ?b :: ?c :: ?G ++ ?P ++ ?En ++ _ = _ =>
          exists (A ++ a :: b :: c :: G ++ P ++ En)
      end.
      rewrite <-(app_assoc (parse_ok <$> _)). simpl. by rewrite <-!app_assoc.
    + match goal with
      | |- ∃ _, ?A ++ ?a :: ?b :: ?c :: ?G ++ ?P ++ ?En ++ _ = _ =>
          exists (A ++ a :: b :: c :: G ++ P ++ En)
      end.
      rewrite <-(app_assoc (parse_ok <$> _)). simpl. by rewrite <-!app_assoc.
Qed.

(** The environment after a loop of successful parses is the one the
    sources built up one after the other. *)
Lemma ingestion_threads_world l s :
  result (for_each l (process_input_file E) s) = Ret () →
  world (final (for_each l (process_input_file E) s))
  = foldl (λ w f, (parse_yaml E f w).2) (world s) l.
Proof.
  revert s. induction l as [|f l IH]; intros s; [done|].
  simpl. rewrite bind_out.
  destruct (parse_yaml E f (world s)) as [[message|] w'] eqn:Hp.
  - by rewrite (process_input_file_error E _ _ _ _ Hp).
  - rewrite (process_input_file_ok E _ _ _ Hp). simpl. intros Hr.
    by rewrite (IH (Proc w' (any_networkd s)) Hr).
Qed.

(** X12: [finish_parse] is called at most once, after every source of the
    run has been parsed successfully, and in the environment the calls of
    [parse_yaml] built up in the order of the source list, each working on
    what the one before left. *)
Theorem finish_parse_sees_all_sources argv0 rootdir files w ok :
  FinishParse ok ∈ emitted (run_main E argv0 (inr (Options rootdir files)) w) →
  let sources := sources_of E (called_as_generator argv0) rootdir files w in
  ok = (finish_parse E (foldl (λ w f, (parse_yaml E f w).2) w sources)).1
  ∧ ∃ rest, emitted (run_main E argv0 (inr (Options rootdir files)) w)
            = (parse_ok <$> sources) ++ FinishParse ok :: rest
            ∧ ∀ ok', FinishParse ok' ∉ rest.
Proof.
  pose proof (main_run E argv0 (inr (Options rootdir files)) w) as Hrun.
  set (o := run_main E argv0 (inr (Options rootdir files)) w) in *. clearbody o.
  destruct Hrun as [m [=]|r fs _ _ _ ->|r fs _ _ _ _ ->|r fs [= <- <-] _ Hshape];
    try (intros H; split_in H; discriminate).
  destruct Hshape as [text _ ->|Hstop ->|oi w2 -> Hr Hfp ->
                     |oi w2 og op og' -> Hr Hfp Hog Hop Hog' _ _ ->].
  - intros H; split_in H; discriminate.
  - destruct (ingestion_exit_1 _ _ Hstop) as [_ (before & f & m & ->)].
    intros H; split_in H; discriminate.
  - rewrite (ingestion_threads_world _ _ Hr) in Hfp. cbn [world] in Hfp.
    rewrite (ingestion_ok_events _ _ Hr). cbn [emitted]. intros H. cbv zeta.
    split_in H; try discriminate.
    injection H as ->. split; [by rewrite Hfp|]. exists []. split; [done|].
    intros ok' H. by apply elem_of_nil in H.
  - rewrite (ingestion_threads_world _ _ Hr) in Hfp. cbn [world] in Hfp.
    rewrite (ingestion_ok_events _ _ Hr). cbv zeta.
    assert (∀ e, e ∈ emitted og → generation_event e) as Hog_in.
    { intros e He. rewrite Hog in He. by apply generate_event_in in He. }
    assert (∀ e, e ∈ emitted op → ∃ r p, e = StringFreeToFile r p) as Hop_in.
    { intros e He. rewrite Hop in He. by apply policy_event_in in He. }
    assert (∀ e, e ∈ emitted og' → (∃ d ok, e = EnableNetworkd d ok) ∨ (∃ p ok, e = Fopen p ok))
      as Hog'_in.
    { intros e He. rewrite Hog' in He. by apply generator_finish_event_in in He. }
    assert (∀ ok', FinishParse ok' ∉ CleanupNetworkdConf rootdir :: CleanupNmConf rootdir
                                     :: emitted og ++ emitted op ++ emitted og') as Hrest.
    { intros ok' H. late_in H Hog_in Hop_in.
      by apply Hog'_in in H as [(? & ? & ?)|(? & ? & ?)]. }
    intros H. split_in H; try discriminate.
    + injection H as ->. split; [by rewrite Hfp|]. by eexists.
    + destruct (Hrest ok). rewrite !elem_of_cons, !elem_of_app. auto.
    + destruct (Hrest ok). rewrite !elem_of_cons, !elem_of_app. auto.
    + destruct (Hrest ok). rewrite !elem_of_cons, !elem_of_app. auto.
Qed.

(** X13: when [main] is not called as generator and source files are named
    on the command line, the run ends with status 1 exactly when
    [parse_yaml] fails on one of the named files; nothing else, a failing
    [glob] included, ends such a run with status 1. *)
Theorem direct_run_fails_only_on_parse_error argv0 rootdir strv w :
  called_as_generator argv0 = false →
  result (run_main E argv0 (inr (Options rootdir (Some strv))) w) = Exit 1
  ↔ ∃ f message,
      f ∈ strv
      ∧ ParseYaml f (Some message)
          ∈ emitted (run_main E argv0 (inr (Options rootdir (Some strv))) w).
Proof.
  intros Hgen.
  pose proof (main_run E argv0 (inr (Options rootdir (Some strv))) w) as Hrun.
  set (o := run_main E argv0 (inr (Options rootdir (Some strv))) w) in *. clearbody o.
  destruct Hrun as [m [=]|r fs _ Hgen' _ _|r fs _ Hgen' _ _ _|r fs [= <- <-] _ Hshape];
    [congruence..|].
  rewrite Hgen in Hshape.
  destruct Hshape as [text [[=]|[=]] _|Hstop ->|oi w2 -> Hr _ ->
                     |oi w2 og op og' -> Hr _ Hog Hop Hog' Hres _ ->].
  - simpl in *. destruct (for_each_process_spec E strv (Proc w false)) as [Hi _].
    destruct (ingestion_failed_inv E _ _ Hi Hstop) as (n & f & m & w0 & Hn & -> & -> & _).
    split; [intros _|done]. exists f, m. split; [by eapply list_elem_of_lookup_2|].
    apply elem_of_app. right. by left.
  - simpl in *. rewrite (ingestion_ok_events _ _ Hr). split; [done|].
    intros (f & m & _ & H). split_in H; discriminate.
  - simpl in *. rewrite Hres, (ingestion_ok_events _ _ Hr).
    rewrite Hog'. simpl. split; [done|].
    assert (∀ e, e ∈ emitted og → generation_event e) as Hog_in.
    { intros e He. rewrite Hog in He. by apply generate_event_in in He. }
    assert (∀ e, e ∈ emitted op → ∃ r p, e = StringFreeToFile r p) as Hop_in.
    { intros e He. rewrite Hop in He. by apply policy_event_in in He. }
    intros (f & m & _ & H). late_in H Hog_in Hop_in.
Qed.

End Outcomes.

(** ** The order and the arguments of the backend calls *)

Section Dispatching.
Context {W ND RT RL : Type} (E : @Env W ND RT RL).
Implicit Types (e : @event ND RT RL).

Local Abbreviation sound := (@sound W ND RT RL).

Ltac run_iterator :=
  unfold nd_iterator, routing_iterator, rule_iterator, call_, call, set_any_networkd;
  rewrite ?bind_out; simpl.

Lemma nd_iterator_emits_kind (K : @event ND RT RL → Prop) k v ud :
  (∀ b, K (WriteNetworkdConf v ud b)) → K (WriteNmConf v ud) →
  sound (emits K) (nd_iterator E k v ud).
Proof.
  intros H1 H2 s. unfold emits. run_iterator.
  destruct (write_networkd_conf E v ud (world s)).1; simpl; by repeat constructor.
Qed.

Lemma routing_iterator_emits_kind (K : @event ND RT RL → Prop) k v ud :
  (∀ b, K (WriteNetworkdGlobalIpRoute v ud b)) → sound (emits K) (routing_iterator E k v ud).
Proof.
  intros H1 s. unfold emits. run_iterator.
  destruct (write_networkd_global_ip_route E v ud (world s)).1; simpl; by repeat constructor.
Qed.

Lemma rule_iterator_emits_kind (K : @event ND RT RL → Prop) k v ud :
  (∀ b, K (WriteNetworkdGlobalIpRule v ud b)) → sound (emits K) (rule_iterator E k v ud).
Proof.
  intros H1 s. unfold emits. run_iterator.
  destruct (write_networkd_global_ip_rule E v ud (world s)).1; simpl; by repeat constructor.
Qed.

Lemma nd_loop_emits_kind (K : @event ND RT RL → Prop) table ud :
  (∀ d b, K (WriteNetworkdConf d ud b)) → (∀ d, K (WriteNmConf d ud)) →
  sound (emits K) (g_hash_table_foreach table (nd_iterator E) ud).
Proof.
  intros H1 H2. apply sound_foreach; [apply _|]. intros k v.
  by apply nd_iterator_emits_kind.
Qed.

Lemma write_global_routing_emits_kind (K : @event ND RT RL → Prop) ud routing rules :
  (∀ r b, K (WriteNetworkdGlobalIpRoute r ud b)) →
  (∀ r b, K (WriteNetworkdGlobalIpRule r ud b)) →
  sound (emits K) (write_global_routing E ud routing rules).
Proof.
  intros H1 H2. apply sound_bind; [apply _| |intros _];
    apply sound_foreach; try apply _; intros k v.
  - by apply routing_iterator_emits_kind.
  - by apply rule_iterator_emits_kind.
Qed.

Lemma generate_emits_kind (K : @event ND RT RL → Prop) rootdir :
  (∀ d b, K (WriteNetworkdConf d rootdir b)) → (∀ d, K (WriteNmConf d rootdir)) →
  K (WriteNmConfFinish rootdir) →
  (∀ r b, K (WriteNetworkdGlobalIpRoute r rootdir b)) →
  (∀ r b, K (WriteNetworkdGlobalIpRule r rootdir b)) →
  K reload_event →
  sound (emits K) (generate_backend_files E rootdir).
Proof.
  intros H1 H2 H3 H4 H5 H6. unfold generate_backend_files.
  apply sound_bind; [apply _|apply sound_query, _|intros table].
  apply sound_if; [|apply sound_ret, _].
  apply sound_bind; [apply _|by apply nd_loop_emits_kind|intros _].
  apply sound_bind; [apply _|by apply call_emits|intros _].
  apply sound_bind; [apply _|apply sound_query, _|intros routing].
  apply sound_bind; [apply _|apply sound_query, _|intros rules].
  apply sound_bind; [apply _|by apply write_global_routing_emits_kind|intros _].
  by apply call_emits.
Qed.

Lemma per_definition_writes_app tr1 tr2 :
  per_definition_writes (tr1 ++ tr2)
  = per_definition_writes (ND:=ND) (RT:=RT) (RL:=RL) tr1 ++ per_definition_writes tr2.
Proof. apply omap_app. Qed.

Lemma per_definition_writes_none tr :
  Forall (λ e, ¬ per_definition_event e) tr → per_definition_writes tr = [].
Proof.
  induction 1 as [|e tr He _ IH]; [done|].
  destruct e; try apply IH; by destruct He.
Qed.

Lemma nd_loop_writes ud (entries : list (string * ND)) s :
  per_definition_writes (emitted (for_each entries (λ kv, nd_iterator E kv.1 kv.2 ud) s))
  = flat_map (λ d, [(d, BACKEND_NETWORKD); (d, BACKEND_NM)]) entries.*2
  ∧ length (emitted (for_each entries (λ kv, nd_iterator E kv.1 kv.2 ud) s))
    = (2 * length entries)%nat.
Proof.
  revert s. induction entries as [|[k v] entries IH]; intros s; [done|].
  destruct (for_each_cons_total (λ kv, nd_iterator E kv.1 kv.2 ud) (k, v) entries s)
    as (-> & _ & _); [apply nd_iterator_total|]. cbv beta. cbn [fst snd].
  rewrite per_definition_writes_app, length_app.
  destruct (IH (final (nd_iterator E k v ud s))) as [-> ->].
  run_iterator.
  destruct (write_networkd_conf E v ud (world s)).1; simpl; split; (done || lia).
Qed.

(** X7: for every entry of the [netdefs] table, in traversal order, the
    networkd writer is called and then the NetworkManager writer, each once
    and whatever the networkd writer returned; no other call is made in that
    loop.  Backend generation makes exactly these per-definition calls. *)
Theorem both_writers_per_definition :
  (∀ table ud s,
     result (g_hash_table_foreach table (nd_iterator E) ud s) = Ret ()
     ∧ per_definition_writes (emitted (g_hash_table_foreach table (nd_iterator E) ud s))
       = flat_map (λ d, [(d, BACKEND_NETWORKD); (d, BACKEND_NM)]) (table_values table)
     ∧ length (emitted (g_hash_table_foreach table (nd_iterator E) ud s))
       = (2 * length (table_values table))%nat)
  ∧ (∀ rootdir s,
       per_definition_writes (emitted (generate_backend_files E rootdir s))
       = flat_map (λ d, [(d, BACKEND_NETWORKD); (d, BACKEND_NM)])
                  (table_values (netdefs E (world s)))).
Proof.
  assert (∀ table ud s,
     per_definition_writes (emitted (g_hash_table_foreach table (nd_iterator E) ud s))
       = flat_map (λ d, [(d, BACKEND_NETWORKD); (d, BACKEND_NM)]) (table_values table)
     ∧ length (emitted (g_hash_table_foreach table (nd_iterator E) ud s))
       = (2 * length (table_values table))%nat) as Hloop.
  { intros [entries|] ud s; [|done]. unfold table_values. simpl.
    rewrite length_fmap. apply nd_loop_writes. }
  split.
  - intros table ud s. split; [|apply Hloop].
    apply total_unit, total_foreach. intros k v. apply nd_iterator_total.
  - intros rootdir s. destruct (netdefs E (world s)) as [entries|] eqn:Hn.
    + pose proof (generate_some E rootdir s) as He. cbv zeta in He.
      rewrite He by congruence. rewrite Hn.
      rewrite !per_definition_writes_app, (proj1 (Hloop _ _ _)).
      rewrite (per_definition_writes_none (emitted (write_global_routing E _ _ _ _))).
      * simpl. by rewrite app_nil_r.
      * eapply Forall_impl; [apply (write_global_routing_emits_kind global_event)|];
          [done..|]. intros e He'. destruct e; simpl in *; tauto.
    + by rewrite generate_none.
Qed.

(** The one element of kind [K] of a list splits it in one way only. *)
Lemma split_unique {A} (K : A → Prop) (l1 l2 before after : list A) (x y : A) :
  l1 ++ x :: l2 = before ++ y :: after →
  K y → (∀ z, z ∈ l1 → ¬ K z) → (∀ z, z ∈ l2 → ¬ K z) →
  before = l1 ∧ y = x ∧ after = l2.
Proof.
  revert before. induction l1 as [|a l1 IH]; intros before Heq Hy H1 H2.
  - destruct before as [|z before]; simpl in Heq.
    + by injection Heq as -> ->.
    + injection Heq as -> ->. destruct (H2 y); [|done].
      apply elem_of_app. right. by left.
  - destruct before as [|z before]; simpl in Heq.
    + injection Heq as -> _. destruct (H1 y); [by left|done].
    + injection Heq as -> Heq. destruct (IH before Heq Hy) as (-> & -> & ->); [|done..].
      intros z' Hz'. apply H1. by right.
Qed.

(** X8: wherever a run calls [write_nm_conf_finish], it is with the root
    directory of the command line, after all per-definition writer calls and
    before all global route and rule writer calls; udevd is reloaded after
    it, and neither a per-definition writer nor [write_nm_conf_finish] is
    called any more. *)
Theorem nm_finish_between_definitions_and_globals argv0 rootdir files w r before after :
  emitted (run_main E argv0 (inr (Options rootdir files)) w)
  = before ++ WriteNmConfFinish r :: after →
  r = rootdir
  ∧ (∀ e, e ∈ before → ¬ global_event e ∧ e ≠ reload_event)
  ∧ (∀ e, e ∈ after → ¬ per_definition_event e ∧ ∀ r', e ≠ WriteNmConfFinish r')
  ∧ reload_event ∈ after.
Proof.
  pose proof (main_run E argv0 (inr (Options rootdir files)) w) as Hrun.
  set (o := run_main E argv0 (inr (Options rootdir files)) w) in *. clearbody o.
  intros Heq.
  assert (WriteNmConfFinish r ∈ emitted o) as Hin.
  { rewrite Heq. apply elem_of_app. right. by left. }
  destruct Hrun as [m [=]|r0 fs _ _ _ ->|r0 fs _ _ _ _ ->|r0 fs [= <- <-] _ Hshape];
    try (split_in Hin; discriminate).
  destruct Hshape as [text _ ->|Hstop ->|oi w2 -> Hr _ ->
                     |oi w2 og op og' -> Hr _ Hog Hop Hog' _ _ Hev].
  - split_in Hin; discriminate.
  - destruct (ingestion_exit_1 E _ _ Hstop) as [_ (b & f & m & Hev)].
    rewrite Hev in Hin. split_in Hin; discriminate.
  - rewrite (ingestion_ok_events E _ _ Hr) in Hin. split_in Hin; discriminate.
  - rewrite (ingestion_ok_events E _ _ Hr) in Hev.
    assert (∀ e, e ∈ emitted op → ∃ r p, e = StringFreeToFile r p) as Hop_in.
    { intros e He. rewrite Hop in He. by apply policy_event_in in He. }
    assert (∀ e, e ∈ emitted og' → (∃ d ok, e = EnableNetworkd d ok) ∨ (∃ p ok, e = Fopen p ok))
      as Hog'_in.
    { intros e He. rewrite Hog' in He. by apply generator_finish_event_in in He. }
    assert (netdefs E (world (cleaned E rootdir w2)) ≠ None) as Hn.
    { intros Hn. rewrite Hog, generate_none in Hev by done. rewrite Hev in Hin.
      split_in Hin; try discriminate.
      - by apply Hop_in in Hin as (? & ? & ?).
      - by apply Hog'_in in Hin as [(? & ? & ?)|(? & ? & ?)]. }
    pose proof (generate_some E rootdir (cleaned E rootdir w2) Hn) as Hgen.
    cbv zeta in Hgen. rewrite <-Hog in Hgen.
    set (o1 := g_hash_table_foreach _ (nd_iterator E) rootdir _) in Hgen.
    set (o2 := write_global_routing E rootdir _ _ _) in Hgen.
    assert (Forall per_definition_event (emitted o1)) as Ho1
      by by apply (nd_loop_emits_kind per_definition_event).
    assert (Forall global_event (emitted o2)) as Ho2
      by by apply (write_global_routing_emits_kind global_event).
    rewrite Forall_forall in Ho1, Ho2. clearbody o1 o2.
    rewrite Hgen in Hev. rewrite Hev in Heq. clear Hin Hev Hgen Hog.
    assert (((parse_ok <$> sources_of E (called_as_generator argv0) rootdir files w)
             ++ [FinishParse true; CleanupNetworkdConf rootdir; CleanupNmConf rootdir]
             ++ emitted o1)
            ++ WriteNmConfFinish rootdir
               :: (emitted o2 ++ [reload_event] ++ emitted op ++ emitted og')
            = before ++ WriteNmConfFinish r :: after) as Heq'.
    { rewrite <-Heq. rewrite <-?app_assoc. simpl. by rewrite <-?app_assoc. }
    apply (split_unique (λ e, ∃ r', e = WriteNmConfFinish r')) in Heq'
      as (-> & [= ->] & ->); [|by eexists|..].
    + split; [done|split; [|split]].
      * intros e He. split_in He; subst; try (split; [simpl; tauto|done]).
        apply Ho1 in He. destruct e; try done; (split; [simpl; tauto|done]).
      * intros e He. split_in He; subst; try (split; [simpl; tauto|done]).
        -- apply Ho2 in He. destruct e; try done; (split; [simpl; tauto|done]).
        -- apply Hop_in in He as (? & ? & ->). split; [simpl; tauto|done].
        -- apply Hog'_in in He as [(? & ? & ->)|(? & ? & ->)]; (split; [simpl; tauto|done]).
      * rewrite !elem_of_app. right. left. by left.
    + intros e He [r' ->]. split_in He; try discriminate. by apply Ho1 in He.
    + intros e He [r' ->]. split_in He; try discriminate.
      * by apply Ho2 in He.
      * by apply Hop_in in He as (? & ? & ?).
      * by apply Hog'_in in He as [(? & ? & ?)|(? & ? & ?)].
Qed.

(** X9: every call of a run that takes a root directory (the two cleanups,
    all writers, [write_nm_conf_finish], the NetworkManager policy file) is
    given the root directory of the command line. *)
Theorem root_directory_passed_on argv0 rootdir files w e r :
  e ∈ emitted (run_main E argv0 (inr (Options rootdir files)) w) →
  event_rootdir e = Some r →
  r = rootdir.
Proof.
  pose proof (main_run E argv0 (inr (Options rootdir files)) w) as Hrun.
  set (o := run_main E argv0 (inr (Options rootdir files)) w) in *. clearbody o.
  destruct Hrun as [m [=]|r0 fs _ _ _ ->|r0 fs _ _ _ _ ->|r0 fs [= <- <-] _ Hshape];
    try (intros Hin; split_in Hin; by subst).
  destruct Hshape as [text _ ->|Hstop ->|oi w2 -> Hr _ ->
                     |oi w2 og op og' -> Hr _ Hog Hop Hog' _ _ ->].
  - intros Hin; split_in Hin; by subst.
  - destruct (ingestion_exit_1 E _ _ Hstop) as [_ (b & f & m & ->)].
    intros Hin; split_in Hin; by subst.
  - rewrite (ingestion_ok_events E _ _ Hr). intros Hin; split_in Hin; by subst.
  - rewrite (ingestion_ok_events E _ _ Hr). intros Hin Hroot.
    split_in Hin; subst; try (simpl in Hroot; congruence).
    + assert (sound (emits (λ e, ∀ r, event_rootdir e = Some r → r = rootdir))
                (generate_backend_files E rootdir)) as Hk
        by (apply generate_emits_kind; simpl; intros; congruence).
      by eapply (proj1 (Forall_forall _ _) (Hk (cleaned E rootdir w2))).
    + destruct (policy_cases E rootdir (final (generate_backend_files E rootdir
                  (cleaned E rootdir w2)))) as (_ & _ & [Heq|Heq]);
        rewrite Heq in Hin; simpl in Hin; split_in Hin. subst. simpl in Hroot. congruence.
    + apply generator_finish_event_in in Hin as [(? & ? & ->)|(? & ? & ->)]; discriminate.
Qed.

(** X10: a successful [finish_parse] is directly followed by
    [cleanup_networkd_conf] and [cleanup_nm_conf], in this order and on the
    root directory of the command line, whether or not the model holds any
    definition; before it only sources were parsed, and neither cleanup is
    called again.  No cleanup is called in a run without a successful
    [finish_parse]. *)
Theorem cleanups_follow_finish_parse argv0 rootdir files w :
  (FinishParse true ∈ emitted (run_main E argv0 (inr (Options rootdir files)) w) →
   ∃ sources rest,
     emitted (run_main E argv0 (inr (Options rootdir files)) w)
     = (parse_ok <$> sources)
       ++ [FinishParse true; CleanupNetworkdConf rootdir; CleanupNmConf rootdir] ++ rest
     ∧ Forall late_event rest)
  ∧ (∀ r, CleanupNetworkdConf r ∈ emitted (run_main E argv0 (inr (Options rootdir files)) w)
          ∨ CleanupNmConf r ∈ emitted (run_main E argv0 (inr (Options rootdir files)) w) →
          FinishParse true ∈ emitted (run_main E argv0 (inr (Options rootdir files)) w)).
Proof.
  pose proof (main_run E argv0 (inr (Options rootdir files)) w) as Hrun.
  set (o := run_main E argv0 (inr (Options rootdir files)) w) in *. clearbody o.
  destruct Hrun as [m [=]|r0 fs _ _ _ ->|r0 fs _ _ _ _ ->|r0 fs [= <- <-] _ Hshape];
    try (split; [intros H|intros r [H|H]]; split_in H; discriminate).
  destruct Hshape as [text _ ->|Hstop ->|oi w2 -> Hr _ ->
                     |oi w2 og op og' -> Hr _ Hog Hop Hog' _ _ ->].
  - split; [intros H|intros r [H|H]]; split_in H; discriminate.
  - destruct (ingestion_exit_1 E _ _ Hstop) as [_ (b & f & m & ->)].
    split; [intros H|intros r [H|H]]; split_in H; discriminate.
  - rewrite (ingestion_ok_events E _ _ Hr).
    split; [intros H|intros r [H|H]]; split_in H; discriminate.
  - rewrite (ingestion_ok_events E _ _ Hr). split.
    + intros _. eexists _, _. split; [done|].
      rewrite !Forall_app, Hog, Hop, Hog'.
      split; [apply generate_late|split; [apply policy_late|apply generator_finish_late]].
    + intros _ _. apply elem_of_app. right. by left.
Qed.

End Dispatching.

(** ** Detection of the generator calling convention *)

Lemma prefix_append (p s : string) :
  String.prefix p s = true ↔ ∃ t, s = p +:+ t.
Proof.
  revert s. induction p as [|a p IH]; intros s.
  - destruct s; split; eauto.
  - destruct s as [|b s]; simpl; [split; [done|by intros [t [=]]]|].
    destruct (Ascii.ascii_dec a b) as [->|Hne].
    + rewrite IH. split; intros [t Ht]; exists t; [by rewrite Ht|by injection Ht].
    + split; [done|]. intros [t [= -> _]]. done.
Qed.

Lemma strstr_occurrence (haystack needle : string) :
  strstr haystack needle ≠ None ↔ ∃ pre post, haystack = pre +:+ needle +:+ post.
Proof.
  split.
  - induction haystack as [|c rest IH].
    + cbn [strstr]. destruct (String.prefix needle EmptyString) eqn:Hp;
        [|intros H; by destruct H].
      intros _. apply prefix_append in Hp as [t Ht]. by exists EmptyString, t.
    + cbn [strstr]. destruct (String.prefix needle (String c rest)) eqn:Hp.
      * intros _. apply prefix_append in Hp as [t Ht]. by exists EmptyString, t.
      * intros H. destruct (IH H) as (pre & post & ->). by exists (String c pre), post.
  - intros (pre & post & ->). induction pre as [|c pre IH].
    + assert (String.prefix needle (EmptyString +:+ needle +:+ post) = true) as Hp
        by (apply prefix_append; by exists post).
      destruct (EmptyString +:+ needle +:+ post); cbn [strstr]; by rewrite Hp.
    + change (String c pre +:+ needle +:+ post) with (String c (pre +:+ needle +:+ post)).
      cbn [strstr]. by destruct (String.prefix needle _).
Qed.

(** X11: [main] takes itself to be called as generator exactly when
    [argv[0]] holds [systemd/system-generators/] somewhere, whatever comes
    before and after. *)
Theorem generator_detection (argv0 : string) :
  called_as_generator argv0 = true
  ↔ ∃ pre post, argv0 = pre +:+ "systemd/system-generators/" +:+ post.
Proof.
  unfold called_as_generator. rewrite bool_decide_eq_true. apply strstr_occurrence.
Qed.

(** ** Runs that get as far as backend generation *)

Section Reaching.
Context {W ND RT RL : Type} (E : @Env W ND RT RL).
Implicit Types (e : @event ND RT RL).

Lemma ingestible_reads l s :
  ingestible E l (world s) ↔ result (for_each l (process_input_file E) s) = Ret ().
Proof.
  revert s. induction l as [|f l IH]; intros s; [done|].
  cbn [ingestible for_each]. rewrite bind_out.
  destruct (parse_yaml E f (world s)) as [[message|] w'] eqn:Hp.
  - rewrite (process_input_file_error E _ _ _ _ Hp). simpl. split; [by intros [? _]|done].
  - rewrite (process_input_file_ok E _ _ _ Hp). cbn [result final fst snd].
    rewrite <-(IH (Proc w' (any_networkd s))). simpl. split; [by intros [_ ?]|done].
Qed.

(** Reading the sources succeeds in a run that gets as far as backend
    generation, and [finish_parse] is called on what the parses built. *)
Lemma reaches_generation_reads gen rootdir files w :
  reaches_generation E gen rootdir files w →
  let oi := for_each (sources_of E gen rootdir files w) (process_input_file E) (Proc w false) in
  read_input_files E gen rootdir files (Proc w false) = oi
  ∧ result oi = Ret ()
  ∧ finish_parse E (world (final oi))
    = (true, (finish_parse E (parsed_world E (sources_of E gen rootdir files w) w)).2).
Proof.
  intros (Hglob & Hing & Hfp). cbv zeta.
  apply (ingestible_reads _ (Proc w false)) in Hing.
  split; [|split; [done|]].
  - assert (discovery_mode gen files ∨ ∃ strv, files = Some strv ∧ gen = false)
      as [Hmode|(strv & -> & ->)]; [|..|done].
    { destruct files, gen; unfold discovery_mode; eauto. }
    destruct (Hglob Hmode) as (F1 & F2 & F3).
    destruct (read_input_files_globs E gen rootdir files w Hmode) as (_ & _ & _ & Hread).
    rewrite (Hread F1 F2 F3). by rewrite sources_of_discovery.
  - rewrite (ingestion_threads_world E _ _ Hing). cbn [world].
    unfold parsed_world in Hfp |- *.
    destruct (finish_parse E _) as [ok w2]. simpl in Hfp. by subst.
Qed.

(** The run that gets as far as backend generation. *)
Lemma run_dispatched argv0 rootdir files w :
  guard_passed E argv0 files w →
  reaches_generation E (called_as_generator argv0) rootdir files w →
  let gen := called_as_generator argv0 in
  let og := generate_backend_files E rootdir
              (Proc (generation_world E gen rootdir files w) false) in
  let op := disable_nm_device_policy E rootdir (final og) in
  let og' := generator_finish E gen files (stamp_of E gen files) (final op) in
  let o := run_main E argv0 (inr (Options rootdir files)) w in
  result o = then_exit_0 (result og')
  ∧ final o = final og'
  ∧ emitted o = (parse_ok <$> sources_of E gen rootdir files w)
                ++ [FinishParse true; CleanupNetworkdConf rootdir; CleanupNmConf rootdir]
                ++ emitted og ++ emitted op ++ emitted og'.
Proof.
  intros Hguard Hreach. cbv zeta.
  destruct (reaches_generation_reads _ _ _ _ Hreach) as (Hread & Hr & Hfp). cbv zeta in *.
  destruct (run_after_reading E argv0 rootdir files w Hguard) as [_ Hgo].
  cbv zeta in Hgo. rewrite Hread in Hgo. destruct (Hgo Hr) as [rest Hrest]. clear Hgo.
  destruct (main_generation E argv0 rootdir files w Hguard)
    as [text _ Ho|Hstop _|oi w2 -> _ Hfp' _|oi w2 og op og' -> _ Hfp' -> -> -> Hres Hfin Hev].
  - rewrite Ho in Hrest. simpl in Hrest.
    assert (∃ ok, FinishParse ok ∈ [Stderr text : @event ND RT RL]) as [ok Hin].
    { eexists. rewrite Hrest. apply elem_of_app. right. left. }
    split_in Hin. discriminate.
  - by destruct Hstop.
  - rewrite Hfp in Hfp'. discriminate.
  - rewrite Hfp in Hfp'. injection Hfp' as <-.
    split; [exact Hres|split; [exact Hfin|]].
    by rewrite Hev, (ingestion_ok_events E _ _ Hr).
Qed.

(** A run that ends with status 0 has called [finish_parse] with success,
    unless it is the generator run that found the stamp. *)
Lemma exit_0_finish_parse argv0 rootdir files w :
  guard_passed E argv0 files w →
  result (run_main E argv0 (inr (Options rootdir files)) w) = Exit 0 →
  FinishParse true ∈ emitted (run_main E argv0 (inr (Options rootdir files)) w).
Proof.
  intros Hguard.
  destruct (main_generation E argv0 rootdir files w Hguard)
    as [text _ ->|Hstop ->|oi w2 _ _ _ ->|oi w2 og op og' _ _ _ _ _ _ _ _ ->]; try done.
  - by destruct (ingestion_exit_1 E _ _ Hstop) as [-> _].
  - intros _. rewrite !elem_of_app, !elem_of_cons. right. left. by left.
Qed.

(** Only a run that gets as far as backend generation calls [finish_parse]
    with success. *)
Lemma finish_parse_reaches_generation argv0 rootdir files w :
  guard_passed E argv0 files w →
  FinishParse true ∈ emitted (run_main E argv0 (inr (Options rootdir files)) w) →
  reaches_generation E (called_as_generator argv0) rootdir files w.
Proof.
  intros Hguard Hin.
  assert (discovery_mode (called_as_generator argv0) files →
          ¬ glob_fails E (glob_pattern rootdir "/lib/netplan/*.yaml") w
          ∧ ¬ glob_fails E (glob_pattern rootdir "/etc/netplan/*.yaml") w
          ∧ ¬ glob_fails E (glob_pattern rootdir "/run/netplan/*.yaml") w) as Hglob.
  { intros Hmode.
    destruct (read_input_files_globs E (called_as_generator argv0) rootdir files w Hmode)
      as (H1 & H2 & H3 & _).
    destruct (run_after_reading E argv0 rootdir files w Hguard) as [Hstop _].
    cbv zeta in Hstop.
    assert (∀ pattern,
              read_input_files E (called_as_generator argv0) rootdir files (Proc w false)
              = glob_failure E pattern w → False) as Hno.
    { intros pattern Heq. rewrite Heq in Hstop. rewrite Hstop in Hin by done.
      unfold glob_failure in Hin. simpl in Hin. split_in Hin. discriminate. }
    assert (¬ glob_fails E (glob_pattern rootdir "/lib/netplan/*.yaml") w) as N1.
    { intros F1. exact (Hno _ (H1 F1)). }
    assert (¬ glob_fails E (glob_pattern rootdir "/etc/netplan/*.yaml") w) as N2.
    { intros F2. exact (Hno _ (H2 N1 F2)). }
    split; [done|split; [done|]]. intros F3. exact (Hno _ (H3 N1 N2 F3)). }
  destruct (main_generation E argv0 rootdir files w Hguard)
    as [text _ Ho|Hstop Ho|oi w2 Hoi Hr _ Ho|oi w2 og op og' Hoi Hr Hfp _ _ _ _ _ _].
  - rewrite Ho in Hin. simpl in Hin. split_in Hin. discriminate.
  - rewrite Ho in Hin.
    destruct (ingestion_exit_1 E _ _ Hstop) as [_ (before & f & m & Hev)].
    rewrite Hev in Hin. split_in Hin; discriminate.
  - rewrite Ho in Hin. simpl in Hin. subst oi.
    rewrite (ingestion_ok_events E _ _ Hr) in Hin. split_in Hin; discriminate.
  - subst oi. split; [done|split].
    + by apply (ingestible_reads _ (Proc w false)).
    + pose proof (ingestion_threads_world E _ _ Hr) as Hw. cbn [world] in Hw.
      unfold parsed_world. by rewrite <-Hw, Hfp.
Qed.

(** Where a run calls [enable_networkd] and where it opens a file. *)
Lemma run_finish_events argv0 rootdir files w e :
  e ∈ emitted (run_main E argv0 (inr (Options rootdir files)) w) →
  (∀ d ok, e = EnableNetworkd d ok →
           d = files_0 files ∧ called_as_generator argv0 = true
           ∧ any_networkd (final (run_main E argv0 (inr (Options rootdir files)) w)) = true)
  ∧ (∀ p ok, e = Fopen p ok → p = stamp_path E files ∧ called_as_generator argv0 = true).
Proof.
  pose proof (main_run E argv0 (inr (Options rootdir files)) w) as Hrun.
  set (o := run_main E argv0 (inr (Options rootdir files)) w) in *. clearbody o.
  destruct Hrun as [m [=]|r fs _ _ _ ->|r fs _ _ _ _ ->|r fs [= <- <-] _ Hshape];
    try (intros H; split_in H; subst e; split; intros; discriminate).
  destruct Hshape as [text _ ->|Hstop ->|oi w2 -> Hr _ ->
                     |oi w2 og op og' -> Hr _ Hog Hop Hog' _ Hfin Hev].
  - intros H; split_in H; subst e; split; intros; discriminate.
  - destruct (ingestion_exit_1 E _ _ Hstop) as [_ (before & f & m & ->)].
    intros H; split_in H; subst e; split; intros; discriminate.
  - rewrite (ingestion_ok_events E _ _ Hr).
    intros H; split_in H; subst e; split; intros; discriminate.
  - rewrite Hev, Hfin, (ingestion_ok_events E _ _ Hr). intros H.
    assert (any_networkd (final og') = any_networkd (final op)) as Hflag.
    { rewrite Hog'. apply generator_finish_flag. }
    split_in H; try (subst e; split; intros; discriminate).
    + rewrite Hog in H. apply generate_event_in in H as [H| ->].
      * split; intros ? ? ->; discriminate.
      * split; intros; discriminate.
    + rewrite Hop in H. apply policy_event_in in H as (? & ? & ->).
      split; intros; discriminate.
    + rewrite Hog' in H.
      apply generator_finish_events in H as [(ok & -> & Hgen & Hany)|(ok & -> & Hgen)].
      * split; [|intros; discriminate]. intros d ok' [= <- <-]. by rewrite Hflag.
      * split; [intros; discriminate|]. by intros p ok' [= <- <-].
Qed.

(** C6: called as generator with three directories and no stamp present, a
    run that gets as far as backend generation ends in the calls of lines
    200-210: [enable_networkd] on the first directory exactly when
    [any_networkd] is set (which is when some networkd writer reported
    output), then [fopen] of [<first directory>/netplan.stamp] for writing
    as the last call of the run.  If
    [enable_networkd] fails its assertion the run aborts before the stamp
    is opened; if the stamp cannot be opened the run aborts; otherwise the
    run ends with status 0 in the environment [fopen] left.  A run that ends
    with status 0 is such a run, so it has opened the stamp, with success,
    as its last call.  [enable_networkd] is called on no other directory and
    no other file is opened. *)
Theorem generator_finish_protocol argv0 rootdir f0 f1 f2 w :
  called_as_generator argv0 = true →
  let files := Some [f0; f1; f2] in
  let stamp := stamp_path E files in
  g_access E stamp w ≠ 0 →
  let o := run_main E argv0 (inr (Options rootdir files)) w in
  let any := any_networkd (final o) in
  (reaches_generation E true rootdir files w →
   ∃ before wg,
     FinishParse true ∈ before
     ∧ (∀ e, e ∈ before → (∀ d ok, e ≠ EnableNetworkd d ok) ∧ (∀ p ok, e ≠ Fopen p ok))
     ∧ any = existsb managed_output before
     ∧ (any = true ∧ enable_networkd E f0 wg = None
        ∧ emitted o = before ++ [EnableNetworkd f0 false]
        ∧ result o = Abort
        ∨ ∃ enable w1,
            (any = true ∧ enable_networkd E f0 wg = Some w1
             ∧ enable = [EnableNetworkd f0 true]
             ∨ any = false ∧ w1 = wg ∧ enable = [])
            ∧ ((∃ w', fopen_w E stamp w1 = Some w'
                      ∧ emitted o = before ++ enable ++ [Fopen stamp true]
                      ∧ result o = Exit 0
                      ∧ world (final o) = w')
               ∨ fopen_w E stamp w1 = None
                 ∧ emitted o = before ++ enable ++ [Fopen stamp false]
                 ∧ result o = Abort)))
  ∧ (result o = Exit 0 →
     reaches_generation E true rootdir files w
     ∧ ∃ before w0, emitted o = before ++ [Fopen stamp true]
                    ∧ fopen_w E stamp w0 = Some (world (final o)))
  ∧ (∀ d ok, EnableNetworkd d ok ∈ emitted o → d = f0 ∧ any = true)
  ∧ (∀ p ok, Fopen p ok ∈ emitted o → p = stamp).
Proof.
  intros Hgen files stamp Habsent o any.
  assert (guard_passed E argv0 files w) as Hguard by (intros _; by split).
  assert (reaches_generation E true rootdir files w →
    ∃ before wg,
      FinishParse true ∈ before
      ∧ (∀ e, e ∈ before → (∀ d ok, e ≠ EnableNetworkd d ok) ∧ (∀ p ok, e ≠ Fopen p ok))
      ∧ any = existsb managed_output before
      ∧ (any = true ∧ enable_networkd E f0 wg = None
         ∧ emitted o = before ++ [EnableNetworkd f0 false]
         ∧ result o = Abort
         ∨ ∃ enable w1,
             (any = true ∧ enable_networkd E f0 wg = Some w1
              ∧ enable = [EnableNetworkd f0 true]
              ∨ any = false ∧ w1 = wg ∧ enable = [])
             ∧ ((∃ w', fopen_w E stamp w1 = Some w'
                       ∧ emitted o = before ++ enable ++ [Fopen stamp true]
                       ∧ result o = Exit 0
                       ∧ world (final o) = w')
                ∨ fopen_w E stamp w1 = None
                  ∧ emitted o = before ++ enable ++ [Fopen stamp false]
                  ∧ result o = Abort))) as Hmain.
  { intros Hreach. rewrite <-Hgen in Hreach.
    destruct (run_dispatched argv0 rootdir files w Hguard Hreach) as (Hres & Hfin & Hev).
    cbv zeta in Hres, Hfin, Hev. rewrite Hgen in Hres, Hfin, Hev.
    set (og := generate_backend_files E rootdir _) in *.
    set (op := disable_nm_device_policy E rootdir _) in *.
    pose proof (generator_finish_cases E true files (final op)) as Hc. cbv zeta in Hc.
    pose proof (generator_finish_flag E true files (final op)) as Hflag.
    pose proof (λ e, generator_finish_event_in E true files (final op) e) as Hog'_in.
    set (og' := generator_finish E true files _ _) in *.
    fold o in Hres, Hfin, Hev.
    assert (any = any_networkd (final op)) as Hany by (unfold any; by rewrite Hfin).
    assert (∀ e, e ∈ emitted og → generation_event e) as Hog_in.
    { intros e He. by apply generate_event_in in He. }
    assert (∀ e, e ∈ emitted op → ∃ r p, e = StringFreeToFile r p) as Hop_in.
    { intros e He. by apply policy_event_in in He. }
    clearbody og op og'.
    exists ((parse_ok <$> sources_of E true rootdir files w)
            ++ [FinishParse true; CleanupNetworkdConf rootdir; CleanupNmConf rootdir]
            ++ emitted og ++ emitted op), (world (final op)).
    split; [|split; [|split]].
    - apply elem_of_app. right. by left.
    - intros e He. split_in He; try (subst e; split; intros; discriminate).
      + apply Hog_in in He as [He| ->]; split; try (intros; discriminate);
          intros ? ? ->; discriminate.
      + apply Hop_in in He as (? & ? & ->). split; intros; discriminate.
    - pose proof (run_accumulates E argv0 (inr (Options rootdir files)) w) as Hacc.
      fold o in Hacc. unfold any. rewrite Hacc, Hev.
      rewrite !existsb_app.
      rewrite (existsb_none managed_output (emitted og')).
      2:{ intros e He. by apply Hog'_in in He as [(? & ? & ->)|(? & ? & ->)]. }
      by rewrite !orb_false_r.
    - rewrite Hany, Hres, Hfin, Hev.
      destruct Hc as [[[=] _]|[(_ & Ha & Hen & Heq)
                     |(_ & enable & w1 & Hen & [(w' & Hopen & Heq)|[Hopen Heq]])]];
        rewrite Heq; cbn [result final emitted world then_exit_0].
      + left. split; [done|split; [done|split; [|done]]].
        rewrite <-(app_assoc (parse_ok <$> _)). simpl. by rewrite <-?app_assoc.
      + right. exists enable, w1. split; [done|]. left. exists w'.
        split; [done|split; [|done]].
        rewrite <-(app_assoc (parse_ok <$> _)). simpl. by rewrite <-?app_assoc.
      + right. exists enable, w1. split; [done|]. right.
        split; [done|split; [|done]].
        rewrite <-(app_assoc (parse_ok <$> _)). simpl. by rewrite <-?app_assoc. }
  split; [exact Hmain|split; [|split]].
  - intros Hexit.
    assert (reaches_generation E true rootdir files w) as Hreach.
    { rewrite <-Hgen. apply finish_parse_reaches_generation; [done|].
      by apply exit_0_finish_parse. }
    split; [done|].
    destruct (Hmain Hreach)
      as (before & wg & _ & _ & _ & [(_ & _ & _ & Hab)
         |(enable & w1 & _ & [(w' & Hopen & Hev & _ & Hw)|(_ & _ & Hab)])]);
      [congruence| |congruence].
    exists (before ++ enable), w1. split; [by rewrite Hev, app_assoc|by rewrite Hw].
  - intros d ok Hin.
    by destruct (proj1 (run_finish_events argv0 rootdir files w _ Hin) d ok eq_refl)
      as (-> & _ & ?).
  - intros p ok Hin.
    by destruct (proj2 (run_finish_events argv0 rootdir files w _ Hin) p ok eq_refl)
      as (-> & _).
Qed.

Lemma policy_keeps (P : W → Prop) rootdir s :
  writers_keep E P rootdir →
  P (world s) → P (world (final (disable_nm_device_policy E rootdir s))).
Proof.
  intros (_ & _ & _ & _ & _ & _ & H7 & _) Hs.
  destruct (policy_cases E rootdir s) as (_ & _ & [-> | ->]); simpl; [done|by apply H7].
Qed.

Lemma generator_finish_keeps (P : W → Prop) rootdir gen files s :
  writers_keep E P rootdir →
  P (world s) → P (world (final (generator_finish E gen files (stamp_of E gen files) s))).
Proof.
  intros (_ & _ & _ & _ & _ & _ & _ & H8 & H9) Hs.
  destruct (generator_finish_cases E gen files s)
    as [[_ ->]|[(_ & _ & _ & ->)
               |(_ & enable & w1 & Hen & [(w' & Hopen & ->)|[_ ->]])]]; simpl; try done.
  - eapply H9; [|exact Hopen].
    destruct Hen as [(_ & Hen & _)|(_ & -> & _)]; [by eapply H8|done].
  - destruct Hen as [(_ & Hen & _)|(_ & -> & _)]; [by eapply H8|done].
Qed.

(** C9: in every run, each call that writes backend output (the networkd
    and NetworkManager writers, [write_nm_conf_finish], the global route
    and rule writers, the NetworkManager policy file) comes after the calls
    of [cleanup_networkd_conf] and of [cleanup_nm_conf]; and a run that gets
    as far as backend generation makes both cleanup calls, on its root
    directory.  Hence what the cleanups have established is still there
    when the run ends: a property [P] of the environment (such as "no file
    of the removed definition is left") that holds once both cleanups have
    run, and that is kept by each later call with the arguments of this run
    (the root directory of the run; the definitions, routes and rules of the
    tables the parser holds), holds in the environment the run leaves. *)
Theorem cleanup_before_write argv0 parsed w :
  (∀ before e after,
     emitted (run_main E argv0 parsed w) = before ++ e :: after →
     backend_write e = true →
     (∃ r, CleanupNetworkdConf r ∈ before) ∧ (∃ r, CleanupNmConf r ∈ before))
  ∧ (∀ rootdir files,
       parsed = inr (Options rootdir files) →
       guard_passed E argv0 files w →
       reaches_generation E (called_as_generator argv0) rootdir files w →
       CleanupNetworkdConf rootdir ∈ emitted (run_main E argv0 parsed w)
       ∧ CleanupNmConf rootdir ∈ emitted (run_main E argv0 parsed w)
       ∧ ∀ P : W → Prop,
           writers_keep E P rootdir →
           P (generation_world E (called_as_generator argv0) rootdir files w) →
           P (world (final (run_main E argv0 parsed w)))).
Proof.
  split.
  - pose proof (main_run E argv0 parsed w) as Hrun.
    set (o := run_main E argv0 parsed w) in *. clearbody o.
    assert (∀ text e, e ∈ [Stderr text : @event ND RT RL] → backend_write e = false)
      as Hstderr by (intros text e He; split_in He; by subst).
    assert (∀ l (o : out ()) e, ingestion E l o → e ∈ emitted o → backend_write e = false)
      as Hing.
    { intros l o' e Hi He. apply (ingestion_event_in E _ _ _ Hi) in He. by destruct e. }
    assert ((∀ e, e ∈ emitted o → backend_write e = false) →
      ∀ before e after, emitted o = before ++ e :: after → backend_write e = true →
        (∃ r, CleanupNetworkdConf r ∈ before) ∧ (∃ r, CleanupNmConf r ∈ before)) as Hearly.
    { intros Htr before e after Heq He. rewrite Htr in He; [done|].
      rewrite Heq. apply elem_of_app. right. by left. }
    destruct Hrun as [m _ ->|r fs _ _ _ ->|r fs _ _ _ _ ->|r fs _ _ Hshape];
      [by apply Hearly, Hstderr..|].
    pose proof (for_each_process_spec E
      (sources_of E (called_as_generator argv0) r fs w) (Proc w false)) as [Hi _].
    destruct Hshape as [text _ ->|Hstop ->|oi w2 -> Hr _ ->
                       |oi w2 og op og' -> Hr _ _ _ _ _ _ Hev].
    + by apply Hearly, Hstderr.
    + apply Hearly. intros e.
      by apply Hing with (l := sources_of E (called_as_generator argv0) r fs w).
    + apply Hearly. simpl. intros e He.
      apply elem_of_app in He as [He|He]; [by eapply Hing|].
      split_in He. by subst.
    + clear Hearly. rewrite Hev.
      intros before e after Heq He.
      rewrite (app_assoc _ [_; _; _]) in Heq.
      destruct (behind_prefix (λ e, backend_write e = true) _ _ _ _ _ Heq) as [mid ->];
        [|done|].
      * intros y Hy. apply elem_of_app in Hy as [Hy|Hy].
        -- rewrite (Hing _ _ _ Hi Hy). done.
        -- split_in Hy; by subst.
      * split; eexists; rewrite !elem_of_app, !elem_of_cons; eauto 7.
  - intros rootdir files -> Hguard Hreach.
    destruct (run_dispatched argv0 rootdir files w Hguard Hreach) as (_ & Hfin & Hev).
    cbv zeta in Hfin, Hev. rewrite Hev, Hfin.
    split; [|split].
    + rewrite !elem_of_app, !elem_of_cons. right. left. right. by left.
    + rewrite !elem_of_app, !elem_of_cons. right. left. right. right. by left.
    + intros P HP Hw.
      apply (generator_finish_keeps P rootdir); [done|].
      apply (policy_keeps P rootdir); [done|].
      by apply (generate_keeps E P rootdir HP).
Qed.

End Reaching.

(** ** The further properties on the sample environment *)

Section FurtherSampleRuns.
Import Sample.

Lemma direct_guard_passed files w : guard_passed env "generate" files w.
Proof. intros H. vm_compute in H. discriminate. Qed.

Lemma glob_failure_is_fatal_witness :
  let E := env_with glob_denied (finish_parse env) in
  run_main E "generate" (inr (Options None None)) tiers
  = glob_failure E "//etc/netplan/*.yaml" tiers.
Proof.
  intros E.
  apply (proj1 (proj2 (glob_failure_is_fatal E "generate" None None tiers
                         (direct_guard_passed None tiers) (or_introl eq_refl)))).
  - unfold glob_fails. vm_compute. intros [H _]. by apply H.
  - unfold glob_fails. vm_compute. split; discriminate.
Defined.

Lemma empty_discovery_witness :
  let o := run_main env "generate" (inr (Options None None)) nothing in
  ingested (emitted o) = []
  ∧ ∃ rest, emitted o = FinishParse (finish_parse env nothing).1 :: rest.
Proof.
  apply (empty_discovery env "generate" None None nothing
           (direct_guard_passed None nothing) (or_introl eq_refl)).
  - unfold glob_fails. vm_compute. intros [_ H]. by apply H.
  - unfold glob_fails. vm_compute. intros [_ H]. by apply H.
  - unfold glob_fails. vm_compute. intros [_ H]. by apply H.
  - vm_compute. reflexivity.
Defined.

Lemma abort_only_on_failed_assertion_witness :
  let o := run_main (env_with s_glob finish_single) "generate" (inr (Options None None)) tiers in
  let o' := run_main env generator (inr (Options None three_dirs)) tiers_read_only in
  let o'' := run_main env generator (inr (Options None three_dirs)) nm_only_read_only in
  (result o = Abort
   ∧ ∃ sources, emitted o = (parse_ok <$> sources) ++ [FinishParse false])
  ∧ result o' = Abort
  ∧ result o'' = Abort.
Proof.
  assert (FinishParse false ∈ emitted (run_main (env_with s_glob finish_single) "generate"
                                         (inr (Options None None)) tiers)) as Hin.
  { apply list_elem_of_lookup_2 with (i := 2%nat). vm_compute. reflexivity. }
  split; [split|split].
  - apply (proj1 (abort_only_on_failed_assertion (env_with s_glob finish_single)
                    "generate" (inr (Options None None)) tiers)). by left.
  - by apply (proj2 (abort_only_on_failed_assertion (env_with s_glob finish_single)
                       "generate" (inr (Options None None)) tiers)).
  - apply (proj1 (abort_only_on_failed_assertion env generator
                    (inr (Options None three_dirs)) tiers_read_only)).
    right. left. exists "/run/gen".
    apply list_elem_of_lookup_2 with (i := 13%nat). vm_compute. reflexivity.
  - apply (proj1 (abort_only_on_failed_assertion env generator
                    (inr (Options None three_dirs)) nm_only_read_only)).
    right. right. exists "/run/gen/netplan.stamp".
    apply list_elem_of_lookup_2 with (i := 8%nat). vm_compute. reflexivity.
Defined.

Lemma exit_status_witness :
  let o := run_main env "generate" (inr (Options None None)) broken in
  any_networkd (final o) = false
  ∧ (∀ e, e ∈ emitted o → ingestion_event e)
  ∧ ∃ before text, emitted o = before ++ [Stderr text].
Proof.
  apply (proj2 (exit_status env "generate" (inr (Options None None)) broken)).
  vm_compute. reflexivity.
Defined.

Lemma direct_run_outcome_witness :
  let o := run_main env "generate" (inr (Options None None)) tiers in
  (∀ d ok, EnableNetworkd d ok ∉ emitted o)
  ∧ (∀ p ok, Fopen p ok ∉ emitted o)
  ∧ (result o = Exit 0 ↔ FinishParse true ∈ emitted o)
  ∧ result o = Exit 0.
Proof.
  intros o.
  destruct (direct_run_outcome env "generate" (inr (Options None None)) tiers eq_refl)
    as (H1 & H2 & H3).
  split; [exact H1|split; [exact H2|split; [exact (H3 None None eq_refl)|]]].
  vm_compute. reflexivity.
Defined.

Lemma stamp_only_after_generation_witness :
  let o := run_main env generator (inr (Options None three_dirs)) tiers in
  called_as_generator generator = true
  ∧ "/run/gen/netplan.stamp" = stamp_path env three_dirs
  ∧ FinishParse true ∈ emitted o
  ∧ CleanupNmConf None ∈ emitted o
  ∧ (∃ before, emitted o = before ++ [Fopen "/run/gen/netplan.stamp" true])
  ∧ (true = true → result o = Exit 0).
Proof.
  apply (stamp_only_after_generation env generator None three_dirs tiers).
  apply list_elem_of_lookup_2 with (i := 13%nat). vm_compute. reflexivity.
Defined.

Lemma nm_finish_between_definitions_and_globals_witness :
  let tr := emitted (run_main env "generate" (inr (Options None None)) tiers) in
  (None : option string) = None
  ∧ (∀ e, e ∈ take 9 tr → ¬ global_event e ∧ e ≠ reload_event)
  ∧ (∀ e, e ∈ drop 10 tr → ¬ per_definition_event e ∧ ∀ r', e ≠ WriteNmConfFinish r')
  ∧ reload_event ∈ drop 10 tr.
Proof.
  apply (nm_finish_between_definitions_and_globals env "generate" None None tiers).
  vm_compute. reflexivity.
Defined.

Lemma root_directory_passed_on_witness :
  CleanupNmConf (Some "/tmp/root")
    ∈ emitted (run_main env "generate" (inr (Options (Some "/tmp/root") None)) tiers)
  ∧ Some "/tmp/root" = Some "/tmp/root".
Proof.
  assert (CleanupNmConf (Some "/tmp/root")
            ∈ emitted (run_main env "generate" (inr (Options (Some "/tmp/root") None)) tiers))
    as Hin.
  { apply list_elem_of_lookup_2 with (i := 2%nat). vm_compute. reflexivity. }
  split; [done|].
  by apply (root_directory_passed_on env "generate" (Some "/tmp/root") None tiers
              (CleanupNmConf (Some "/tmp/root")) (Some "/tmp/root") Hin).
Defined.

Lemma cleanups_follow_finish_parse_witness :
  let o := run_main env "generate" (inr (Options None None)) nothing in
  ∃ sources rest,
    emitted o = (parse_ok <$> sources)
                ++ [FinishParse true; CleanupNetworkdConf None; CleanupNmConf None] ++ rest
    ∧ Forall late_event rest.
Proof.
  apply (proj1 (cleanups_follow_finish_parse env "generate" None None nothing)).
  apply list_elem_of_lookup_2 with (i := 0%nat). vm_compute. reflexivity.
Defined.

Lemma both_writers_per_definition_witness :
  let s := Proc (world (final (run_main env "generate" (inr (Options None None)) tiers))) false in
  per_definition_writes (emitted (generate_backend_files env None s))
  = [(false, BACKEND_NETWORKD); (false, BACKEND_NM); (true, BACKEND_NETWORKD); (true, BACKEND_NM)].
Proof.
  intros s. rewrite (proj2 (both_writers_per_definition env) None s).
  vm_compute. reflexivity.
Defined.

Lemma generator_detection_witness : called_as_generator generator = true.
Proof.
  apply (proj2 (generator_detection generator)). by exists "/lib/", "netplan".
Defined.

Lemma tiers_reaches_generation : reaches_generation env true None three_dirs tiers.
Proof.
  split; [|split].
  - intros _. unfold glob_fails. vm_compute.
    repeat split; intros [H1 H2]; first [by apply H1|by apply H2].
  - vm_compute. by repeat split.
  - vm_compute. reflexivity.
Qed.

Lemma generator_finish_protocol_witness :
  let o := run_main env generator (inr (Options None three_dirs)) tiers in
  reaches_generation env true None three_dirs tiers
  ∧ any_networkd (final o) = true
  ∧ result o = Exit 0
  ∧ ∃ before, emitted o = before ++ [EnableNetworkd "/run/gen" true;
                                      Fopen "/run/gen/netplan.stamp" true].
Proof.
  intros o. split; [apply tiers_reaches_generation|].
  assert (g_access env (stamp_path env three_dirs) tiers ≠ 0) as Habsent
    by (vm_compute; discriminate).
  destruct (proj1 (generator_finish_protocol env generator None
                     "/run/gen" "/run/gen.early" "/run/gen.late" tiers eq_refl Habsent)
              tiers_reaches_generation)
    as (before & wg & _ & _ & _ & Hcases).
  assert (any_networkd (final o) = true) as Hany by (vm_compute; reflexivity).
  split; [done|].
  destruct Hcases as [(_ & _ & _ & Hab)
                     |(enable & w1 & Hen & [(w' & _ & Hev & Hres & _)|(_ & _ & Hab)])].
  - vm_compute in Hab. discriminate Hab.
  - split; [done|]. exists before.
    destruct Hen as [(_ & _ & ->)|(Hf & _)]; [exact Hev|].
    vm_compute in Hf. discriminate Hf.
  - vm_compute in Hab. discriminate Hab.
Defined.

Lemma networkd_path_inj rootdir id1 id2 :
  networkd_path rootdir id1 = networkd_path rootdir id2 → id1 = id2.
Proof.
  unfold networkd_path. intros H. do 2 apply String.app_inj in H.
  by apply string_app_inj_r in H.
Qed.

Lemma nm_path_inj rootdir id1 id2 : nm_path rootdir id1 = nm_path rootdir id2 → id1 = id2.
Proof. unfold nm_path. intros H. by do 2 apply String.app_inj in H. Qed.

Lemma old_is_gone_add b p w :
  (b, p) ≠ (BACKEND_NETWORKD, networkd_path None "old") →
  (b, p) ≠ (BACKEND_NM, nm_path None "old") →
  old_is_gone w → old_is_gone (add_output b p w).
Proof.
  intros H1 H2 (G1 & G2 & G3). unfold old_is_gone. simpl.
  rewrite !not_elem_of_cons. by repeat split.
Qed.

Lemma named_current w0 d :
  old_is_gone w0 → d ∈ table_values (netdefs named w0) → d.1 ≠ "old".
Proof.
  intros (_ & _ & Hid) Hd Heq. apply Hid.
  unfold table_values in Hd. simpl in Hd. unfold n_netdefs in Hd.
  destruct (tab_netdefs w0) as [entries|]; simpl in *; [|by apply elem_of_nil in Hd].
  apply list_elem_of_fmap in Hd as ([k d'] & -> & Hd).
  apply list_elem_of_fmap in Hd as ([k' b] & [= -> ->] & Hd). simpl in Heq. subst.
  apply list_elem_of_fmap. by exists ("old", b).
Qed.

Lemma named_writers_keep : writers_keep named old_is_gone None.
Proof.
  unfold writers_keep. split_and!.
  - intros w0 [id b] w Hw0 Hd Hw. pose proof (named_current _ _ Hw0 Hd) as Hid.
    simpl in *. unfold n_write_networkd_conf. simpl. destruct b; [|done].
    apply old_is_gone_add; [|done..]. intros Heq.
    assert (networkd_path None id = networkd_path None "old") as H by congruence.
    by apply networkd_path_inj in H.
  - intros w0 [id b] w Hw0 Hd Hw. pose proof (named_current _ _ Hw0 Hd) as Hid.
    simpl in *. unfold n_write_nm_conf. simpl. destruct b; [done|].
    apply old_is_gone_add; [done| |done]. intros Heq.
    assert (nm_path None id = nm_path None "old") as H by congruence.
    by apply nm_path_inj in H.
  - done.
  - intros w0 [|] w _ _ Hw; simpl; [|done]. by apply old_is_gone_add.
  - intros w0 [|] w _ _ Hw; simpl; [|done]. by apply old_is_gone_add.
  - done.
  - intros w Hw. simpl. by apply old_is_gone_add.
  - intros d w w' Hw. simpl. unfold s_enable_networkd.
    destruct (read_only w); [done|]. intros [= <-]. exact Hw.
  - intros p w w' Hw. simpl. unfold s_fopen_w.
    destruct (read_only w); [done|]. intros [= <-]. exact Hw.
Qed.

Example upgraded_output :
  generated (world (final (run_main named "generate" (inr (Options None None)) upgraded)))
  = [(BACKEND_NM, "/run/NetworkManager/conf.d/10-globally-managed-devices.conf");
     (BACKEND_NETWORKD, "/run/systemd/network/10-netplan-routes.network");
     (BACKEND_NM, "/run/NetworkManager/system-connections/netplan-wlan0");
     (BACKEND_NETWORKD, "/run/systemd/network/10-netplan-eth0.network")].
Proof. vm_compute. reflexivity. Qed.

Lemma upgraded_reaches_generation : reaches_generation named false None None upgraded.
Proof.
  split; [|split].
  - intros _. unfold glob_fails. vm_compute.
    repeat split; intros [H1 H2]; first [by apply H1|by apply H2].
  - vm_compute. by repeat split.
  - vm_compute. reflexivity.
Qed.

Lemma cleanup_before_write_witness :
  let o := run_main named "generate" (inr (Options None None)) upgraded in
  ¬ old_is_gone upgraded
  ∧ CleanupNetworkdConf None ∈ emitted o
  ∧ CleanupNmConf None ∈ emitted o
  ∧ old_is_gone (world (final o)).
Proof.
  intros o. split.
  { intros (H & _). apply H. left. }
  assert (guard_passed named "generate" None upgraded) as Hguard.
  { intros H. vm_compute in H. discriminate. }
  destruct (proj2 (cleanup_before_write named "generate" (inr (Options None None)) upgraded)
              None None eq_refl Hguard upgraded_reaches_generation) as (H1 & H2 & HP).
  split; [done|split; [done|]].
  apply (HP old_is_gone); [apply named_writers_keep|].
  apply (bool_decide_unpack _). vm_compute. exact I.
Defined.

Lemma finish_parse_sees_all_sources_witness :
  let o := run_main env "generate" (inr (Options None None)) tiers in
  let sources := sources_of env (called_as_generator "generate") None None tiers in
  true = (finish_parse env (foldl (λ w f, (parse_yaml env f w).2) tiers sources)).1
  ∧ ∃ rest, emitted o = (parse_ok <$> sources) ++ FinishParse true :: rest
            ∧ ∀ ok', FinishParse ok' ∉ rest.
Proof.
  apply (finish_parse_sees_all_sources env "generate" None None tiers true).
  apply list_elem_of_lookup_2 with (i := 2%nat). vm_compute. reflexivity.
Defined.

Lemma direct_run_fails_only_on_parse_error_witness :
  result (run_main env "generate"
            (inr (Options None (Some ["//etc/netplan/03-late.yaml"; "//etc/netplan/02-bad.yaml";
                                      "//etc/netplan/01-ok.yaml"]))) broken)
  = Exit 1.
Proof.
  apply (proj2 (direct_run_fails_only_on_parse_error env "generate" None
                  ["//etc/netplan/03-late.yaml"; "//etc/netplan/02-bad.yaml";
                   "//etc/netplan/01-ok.yaml"] broken eq_refl)).
  exists "//etc/netplan/02-bad.yaml", "mapping values are not allowed here". split.
  - apply list_elem_of_lookup_2 with (i := 1%nat). reflexivity.
  - apply list_elem_of_lookup_2 with (i := 1%nat). vm_compute. reflexivity.
Defined.

End FurtherSampleRuns.
